(** * Security-group ingress reconciliation and controller configuration

    A shallow embedding of
      - [diffIPPermissionInfos] and [ReconcileIngress]
        (package networking, security group reconciler), and
      - [ControllerConfig.Validate] (package config),
    together with the properties stated about them in the design
    document: the diff contract, the fetch / revoke / grant protocol with
    its ordering and error propagation, selector-scoped revocation, and
    the validation rule of the controller configuration. *)

From stdpp Require Import gmap strings list pretty.

Local Open Scope string_scope.
Local Open Scope list_scope.

(** Go's [error] interface: a value carrying a message; [nil] is [None]
    wherever an [error] is returned. *)
Definition error : Type := string.

(** Go's [(value, err)] results: the callers below look at the value only
    when [err == nil]. *)
Inductive Result (A : Type) : Type :=
| Ok (a : A)
| Err (e : error).
Arguments Ok {A} a.
Arguments Err {A} e.

(** ** Package networking: data model *)

Module networking.

(** Modelled from the spec: the peer of a rule ("CIDR blocks, referenced
    security groups, or prefix lists"); the declaration of the rule type
    is not part of the sources at hand. *)
Inductive Peer : Type :=
| PeerCIDR (cidr : string)
| PeerSecurityGroup (groupID : string)
| PeerPrefixList (prefixListID : string).

#[global] Instance Peer_eq_dec : EqDecision Peer.
Proof. solve_decision. Defined.

(** Modelled from the spec: the rule proper, "{Protocol, FromPort, ToPort,
    Peer(s)}"; an absent port is [None] ("both absent meaning all
    ports"). *)
Record IpPermission : Type := {
  IpProtocol : string;
  FromPort : option Z;
  ToPort : option Z;
  Peers : list Peer
}.

#[global] Instance IpPermission_eq_dec : EqDecision IpPermission.
Proof. solve_decision. Defined.

(** Modelled from the spec: [IPPermissionInfo], a rule and its label set
    (Go's [map[string]string]).  The field name [Labels] is the one the
    comparator of [diffIPPermissionInfos] ignores. *)
Record IPPermissionInfo : Type := {
  Permission : IpPermission;
  Labels : gmap string string
}.

#[global] Instance IPPermissionInfo_eq_dec : EqDecision IPPermissionInfo.
Proof. solve_decision. Defined.

(** Modelled from the spec: [SecurityGroupInfo], the observed state of
    one security group; the reconciler reads its [Ingress] only. *)
Record SecurityGroupInfo : Type := {
  SecurityGroupID : string;
  Ingress : list IPPermissionInfo
}.

(** The zero value Go yields when a map is indexed at a missing key. *)
Definition SecurityGroupInfo_zero : SecurityGroupInfo :=
  {| SecurityGroupID := ""; Ingress := [] |}.

(** Modelled from the spec: [ec2equality.CompareOptionForIPPermission],
    "structural equality of protocol, port range, and peer
    specification", written field by field. *)
Definition CompareOptionForIPPermission (a b : IpPermission) : bool :=
  bool_decide (IpProtocol a = IpProtocol b)
  && bool_decide (FromPort a = FromPort b)
  && bool_decide (ToPort a = ToPort b)
  && bool_decide (Peers a = Peers b).

(** [cmp.Equal(s, t, opts)] with
    [opts = {CompareOptionForIPPermission(), IgnoreFields(IPPermissionInfo{}, "Labels")}]:
    the [Labels] field is never looked at. *)
Definition cmpEqual (s t : IPPermissionInfo) : bool :=
  CompareOptionForIPPermission (Permission s) (Permission t).

(** The inner loop of [diffIPPermissionInfos]: scan [target], stop at the
    first element equal to [sPermission]. *)
Fixpoint containsInTarget (sPermission : IPPermissionInfo)
    (target : list IPPermissionInfo) : bool :=
  match target with
  | [] => false
  | tPermission :: rest =>
      if cmpEqual sPermission tPermission then true
      else containsInTarget sPermission rest
  end.

(** [diffIPPermissionInfos]: set difference [source - target]; [diffs]
    starts as the nil slice and grows by [append]. *)
Definition diffIPPermissionInfos (source target : list IPPermissionInfo)
    : list IPPermissionInfo :=
  fold_left
    (fun diffs sPermission =>
       if containsInTarget sPermission target then diffs
       else diffs ++ [sPermission])
    source [].

(** [labels.Selector], as far as the reconciler uses it: the [Matches]
    method over a label set. *)
Record Selector : Type := { Matches : gmap string string -> bool }.

(** [labels.Everything()]. *)
Definition Everything : Selector := {| Matches := fun _ => true |}.

Record SecurityGroupReconcileOptions : Type := {
  PermissionSelector : Selector
}.

(** A functional option; Go mutates the options through a pointer, here
    the updated options are returned. *)
Definition SecurityGroupReconcileOption : Type :=
  SecurityGroupReconcileOptions -> SecurityGroupReconcileOptions.

Definition ApplyOptions (opts : SecurityGroupReconcileOptions)
    (options : list SecurityGroupReconcileOption)
    : SecurityGroupReconcileOptions :=
  fold_left (fun o option => option o) options opts.

Definition WithPermissionSelector (permissionSelector : Selector)
    : SecurityGroupReconcileOption :=
  fun _ => {| PermissionSelector := permissionSelector |}.

(** ** The manager interface and the reconcile pass *)

(** [SecurityGroupManager]: the three methods the reconciler calls, over
    an arbitrary manager state [M] (the cloud side).  Each call returns
    its outcome and the state it leaves behind. *)
Class SecurityGroupManager (M : Type) : Type := {
  FetchSGInfosByID : M -> string -> Result (gmap string SecurityGroupInfo) * M;
  RevokeSGIngress : M -> string -> list IPPermissionInfo -> option error * M;
  AuthorizeSGIngress : M -> string -> list IPPermissionInfo -> option error * M
}.

(** The calls a pass issues, in the order it issues them. *)
Inductive Call : Type :=
| CallFetchSGInfosByID (sgID : string)
| CallRevokeSGIngress (sgID : string) (permissions : list IPPermissionInfo)
| CallAuthorizeSGIngress (sgID : string) (permissions : list IPPermissionInfo).

Definition isMutation (c : Call) : bool :=
  match c with
  | CallFetchSGInfosByID _ => false
  | CallRevokeSGIngress _ _ | CallAuthorizeSGIngress _ _ => true
  end.

(** The permissions handed to revoke, resp. grant, calls of a trace. *)
Definition revokedBy (calls : list Call) : list IPPermissionInfo :=
  flat_map (fun c => match c with
                     | CallRevokeSGIngress _ ps => ps
                     | _ => []
                     end) calls.

Definition grantedBy (calls : list Call) : list IPPermissionInfo :=
  flat_map (fun c => match c with
                     | CallAuthorizeSGIngress _ ps => ps
                     | _ => []
                     end) calls.

Record World (M : Type) : Type := {
  manager : M;
  calls : list Call
}.
Arguments manager {M} w.
Arguments calls {M} w.

(** A pass threads the manager and the call trace, and stops at the first
    error ([return err]). *)
Definition Pass (M A : Type) : Type := World M -> Result A * World M.

Definition ret {M A} (a : A) : Pass M A := fun w => (Ok a, w).

Definition bind {M A B} (c : Pass M A) (k : A -> Pass M B) : Pass M B :=
  fun w =>
    match c w with
    | (Ok a, w') => k a w'
    | (Err e, w') => (Err e, w')
    end.

Declare Scope pass_scope.
Delimit Scope pass_scope with pass.
Notation "x <~ c ;; k" := (bind c (fun x => k))
  (at level 100, c at next level, right associativity) : pass_scope.
Notation "c ;;; k" := (bind c (fun _ => k))
  (at level 100, right associativity) : pass_scope.

Section Reconciler.

Context {M : Type} `{!SecurityGroupManager M}.

Definition log (c : Call) (w : World M) (m : M) : World M :=
  {| manager := m; calls := calls w ++ [c] |}.

Definition fetchSGInfosByID (sgID : string)
    : Pass M (gmap string SecurityGroupInfo) :=
  fun w =>
    let '(r, m) := FetchSGInfosByID (manager w) sgID in
    (r, log (CallFetchSGInfosByID sgID) w m).

Definition outcome (err : option error) : Result unit :=
  match err with
  | Some e => Err e
  | None => Ok tt
  end.

Definition revokeSGIngress (sgID : string)
    (permissions : list IPPermissionInfo) : Pass M unit :=
  fun w =>
    let '(err, m) := RevokeSGIngress (manager w) sgID permissions in
    (outcome err, log (CallRevokeSGIngress sgID permissions) w m).

Definition authorizeSGIngress (sgID : string)
    (permissions : list IPPermissionInfo) : Pass M unit :=
  fun w =>
    let '(err, m) := AuthorizeSGIngress (manager w) sgID permissions in
    (outcome err, log (CallAuthorizeSGIngress sgID permissions) w m).

(** The loop of [ReconcileIngress] that keeps the extra permissions the
    selector matches. *)
Definition permissionsToRevoke (reconcileOpts : SecurityGroupReconcileOptions)
    (sgInfo : SecurityGroupInfo) (desiredPermissions : list IPPermissionInfo)
    : list IPPermissionInfo :=
  let extraPermissions :=
    diffIPPermissionInfos (Ingress sgInfo) desiredPermissions in
  fold_left
    (fun acc permission =>
       if Matches (PermissionSelector reconcileOpts) (Labels permission)
       then acc ++ [permission]
       else acc)
    extraPermissions [].

Definition permissionsToGrant (sgInfo : SecurityGroupInfo)
    (desiredPermissions : list IPPermissionInfo) : list IPPermissionInfo :=
  diffIPPermissionInfos desiredPermissions (Ingress sgInfo).

Definition reconcileOptions (opts : list SecurityGroupReconcileOption)
    : SecurityGroupReconcileOptions :=
  ApplyOptions {| PermissionSelector := Everything |} opts.

(** The body of [ReconcileIngress].  The context argument is handed on
    to the manager untouched and the logger is not used; both are left
    out. *)
Definition reconcileIngressPass (sgID : string)
    (desiredPermissions : list IPPermissionInfo)
    (opts : list SecurityGroupReconcileOption) : Pass M unit :=
  (let reconcileOpts := reconcileOptions opts in
   sgInfoByID <~ fetchSGInfosByID sgID ;;
   let sgInfo := default SecurityGroupInfo_zero (sgInfoByID !! sgID) in
   let toRevoke := permissionsToRevoke reconcileOpts sgInfo desiredPermissions in
   let toGrant := permissionsToGrant sgInfo desiredPermissions in
   (if bool_decide (0 < length toRevoke)
    then revokeSGIngress sgID toRevoke else ret tt) ;;;
   (if bool_decide (0 < length toGrant)
    then authorizeSGIngress sgID toGrant else ret tt) ;;;
   ret tt)%pass.

(** [ReconcileIngress]: the returned [error] and the world the pass
    leaves. *)
Definition ReconcileIngress (sgID : string)
    (desiredPermissions : list IPPermissionInfo)
    (opts : list SecurityGroupReconcileOption) (w : World M)
    : option error * World M :=
  match reconcileIngressPass sgID desiredPermissions opts w with
  | (Ok _, w') => (None, w')
  | (Err e, w') => (Some e, w')
  end.

(** One pass from a manager state, with an empty trace. *)
Definition reconcile (sgID : string)
    (desiredPermissions : list IPPermissionInfo)
    (opts : list SecurityGroupReconcileOption) (m : M)
    : option error * World M :=
  ReconcileIngress sgID desiredPermissions opts {| manager := m; calls := [] |}.

End Reconciler.

(** ** The manager contract and an in-memory manager *)

(** Modelled from the spec: the contract a manager has to honour for the
    reconciler to converge (section 4.3); the managers themselves are not
    part of the sources at hand.  [ingressOf m sgID] is what the provider
    holds for [sgID] in state [m].  A successful fetch reports it and
    leaves it alone; a successful revoke removes every listed permission
    and nothing that differs from all of them; a successful grant adds
    the listed permissions and nothing else. *)
Class FaithfulManager (M : Type) `{!SecurityGroupManager M} : Type := {
  ingressOf : M -> string -> list IPPermissionInfo;
  fetch_current : forall m sgID infos m',
    FetchSGInfosByID m sgID = (Ok infos, m') ->
    Ingress (default SecurityGroupInfo_zero (infos !! sgID)) = ingressOf m sgID
    /\ ingressOf m' sgID = ingressOf m sgID;
  revoke_removes : forall m sgID ps m',
    RevokeSGIngress m sgID ps = (None, m') ->
    (forall p, p ∈ ingressOf m' sgID -> p ∈ ingressOf m sgID /\ p ∉ ps)
    /\ (forall p, p ∈ ingressOf m sgID -> containsInTarget p ps = false ->
                  p ∈ ingressOf m' sgID);
  authorize_adds : forall m sgID ps m',
    AuthorizeSGIngress m sgID ps = (None, m') ->
    forall p, p ∈ ingressOf m' sgID <-> p ∈ ingressOf m sgID \/ p ∈ ps
}.

(** Modelled from the spec: the fake manager of the test plan (section 8),
    an in-memory table of security groups with an outcome scripted per
    operation ("success on Fetch, success on Revoke, failure on Grant").
    A scripted error, or an unknown group, fails the call and changes
    nothing; otherwise revoke drops the listed permissions from the
    stored ones and grant appends the listed ones. *)
Record FakeManager : Type := {
  groups : gmap string SecurityGroupInfo;
  fetchErr : option error;
  revokeErr : option error;
  authorizeErr : option error
}.

Definition notFound : error := "security group not found".

Definition setIngress (m : FakeManager) (sgID : string)
    (ingress : list IPPermissionInfo) : FakeManager :=
  {| groups := <[sgID := {| SecurityGroupID := sgID; Ingress := ingress |}]>
                 (groups m);
     fetchErr := fetchErr m;
     revokeErr := revokeErr m;
     authorizeErr := authorizeErr m |}.

Definition fakeFetch (m : FakeManager) (sgID : string)
    : Result (gmap string SecurityGroupInfo) * FakeManager :=
  match fetchErr m with
  | Some e => (Err e, m)
  | None =>
      match groups m !! sgID with
      | Some info => (Ok {[ sgID := info ]}, m)
      | None => (Err notFound, m)
      end
  end.

Definition fakeRevoke (m : FakeManager) (sgID : string)
    (permissions : list IPPermissionInfo) : option error * FakeManager :=
  match revokeErr m with
  | Some e => (Some e, m)
  | None =>
      match groups m !! sgID with
      | Some info =>
          (None,
           setIngress m sgID (list_difference (Ingress info) permissions))
      | None => (Some notFound, m)
      end
  end.

Definition fakeAuthorize (m : FakeManager) (sgID : string)
    (permissions : list IPPermissionInfo) : option error * FakeManager :=
  match authorizeErr m with
  | Some e => (Some e, m)
  | None =>
      match groups m !! sgID with
      | Some info => (None, setIngress m sgID (Ingress info ++ permissions))
      | None => (Some notFound, m)
      end
  end.

#[global] Instance FakeManager_manager : SecurityGroupManager FakeManager := {
  FetchSGInfosByID := fakeFetch;
  RevokeSGIngress := fakeRevoke;
  AuthorizeSGIngress := fakeAuthorize
}.

(** What the fake holds for a group; nothing for an unknown group. *)
Definition fakeIngressOf (m : FakeManager) (sgID : string)
    : list IPPermissionInfo :=
  Ingress (default SecurityGroupInfo_zero (groups m !! sgID)).

(** A fake with one group and no scripted error. *)
Definition fakeWith (sgID : string) (ingress : list IPPermissionInfo)
    : FakeManager :=
  {| groups := {[ sgID := {| SecurityGroupID := sgID; Ingress := ingress |} ]};
     fetchErr := None; revokeErr := None; authorizeErr := None |}.

(** The state of the group after a pass, as the invariant of the data
    model writes it: (observed - revoked) joined with granted. *)
Definition stateAfter (observed : list IPPermissionInfo) (trace : list Call)
    : list IPPermissionInfo :=
  list_difference observed (revokedBy trace) ++ grantedBy trace.

(** Two permission lists denote the same rules: each element of one has
    an equal element, under the comparator, in the other. *)
Definition sameRules (l k : list IPPermissionInfo) : Prop :=
  (forall p, p ∈ l -> containsInTarget p k = true)
  /\ (forall p, p ∈ k -> containsInTarget p l = true).

Definition inScope (sel : Selector) (p : IPPermissionInfo) : bool :=
  Matches sel (Labels p).


End networking.

(** ** The scenarios of the test plan *)

Module scenario.
Import networking.

Definition rule (port : Z) (cidr : string) : IpPermission :=
  {| IpProtocol := "tcp"; FromPort := Some port; ToPort := Some port;
     Peers := [PeerCIDR cidr] |}.

Definition ownedLabels : gmap string string := {[ "owner" := "controller" ]}.

(** A selector matching the permissions labelled as the controller's. *)
Definition owned : Selector :=
  {| Matches := fun ls => bool_decide (ls !! "owner" = Some "controller") |}.

(** [A], owned: (tcp, 443, 0.0.0.0/0). *)
Definition permA : IPPermissionInfo :=
  {| Permission := rule 443 "0.0.0.0/0"; Labels := ownedLabels |}.

(** [A] again, without labels. *)
Definition permA_unlabelled : IPPermissionInfo :=
  {| Permission := rule 443 "0.0.0.0/0"; Labels := ∅ |}.

(** [B], not owned: (tcp, 22, 192.168.0.0/16). *)
Definition permB : IPPermissionInfo :=
  {| Permission := rule 22 "192.168.0.0/16"; Labels := ∅ |}.


(** A desired permission carrying no label: (tcp, 443, 10.0.0.0/8). *)
Definition permD : IPPermissionInfo :=
  {| Permission := rule 443 "10.0.0.0/8"; Labels := ∅ |}.

Definition sg : string := "sg-1".

(** A fake holding [ingress] for [sg], with scripted outcomes. *)
Definition scripted (ingress : list IPPermissionInfo)
    (fetchE revokeE authorizeE : option error) : FakeManager :=
  {| groups := {[ sg := {| SecurityGroupID := sg; Ingress := ingress |} ]};
     fetchErr := fetchE; revokeErr := revokeE; authorizeErr := authorizeE |}.

(** A manager that reports no group at all and records what it is asked
    to grant. *)
Record BlindManager : Type := { recorded : list IPPermissionInfo }.

#[global] Instance BlindManager_manager : SecurityGroupManager BlindManager := {
  FetchSGInfosByID := fun m _ => (Ok ∅, m);
  RevokeSGIngress := fun m _ _ => (None, m);
  AuthorizeSGIngress := fun m _ ps => (None, {| recorded := recorded m ++ ps |})
}.

End scenario.

(** ** Package config *)

Module config.

Section ControllerConfig.

(** [runtime.Scheme], and the two configuration structs declared in
    sibling files of the package; [Validate] looks inside none of them. *)
Variables (Scheme_t IngressConfig_t AddonsConfig_t : Type).

(** The fields of the [RuntimeConfig] struct this file reads; [Scheme] is a pointer,
    [None] when nil. *)
Record RuntimeConfig_t : Type := {
  APIServer : string;
  KubeConfig : string;
  Scheme : option Scheme_t;
  ControllerPort : Z;
  MetricsBindAddress : string;
  EnableLeaderElection : bool;
  LeaderElectionID : string;
  LeaderElectionNamespace : string;
  WatchNamespace : string;
  SyncPeriod : Z
}.

Record ControllerConfig : Type := {
  LogLevel : string;
  ClusterName : string;
  IngressConfig : IngressConfig_t;
  AddonsConfig : AddonsConfig_t;
  RuntimeConfig : RuntimeConfig_t;
  ServiceMaxConcurrentReconciles : Z;
  TargetgroupBindingMaxConcurrentReconciles : Z
}.

(** [Validate]: [fmt.Errorf] with a constant format is the message. *)
Definition Validate (cfg : ControllerConfig) : option error :=
  if bool_decide (String.length (ClusterName cfg) = 0)
  then Some "Kubernetes cluster name must be specified"
  else
    match Scheme (RuntimeConfig cfg) with
    | None => Some "Controller runtime scheme not initialzied"
    | Some _ => None
    end.

End ControllerConfig.

(** A configuration as the flags would fill it, with the cluster name
    and the scheme left to choose. *)
Definition sampleConfig (clusterName : string) (scheme : option unit)
    : ControllerConfig unit unit unit :=
  {| LogLevel := "info";
     ClusterName := clusterName;
     IngressConfig := tt;
     AddonsConfig := tt;
     RuntimeConfig :=
       {| APIServer := ""; KubeConfig := ""; Scheme := scheme;
          ControllerPort := 9443; MetricsBindAddress := ":8080";
          EnableLeaderElection := true;
          LeaderElectionID := "aws-load-balancer-controller-leader";
          LeaderElectionNamespace := ""; WatchNamespace := "";
          SyncPeriod := 3600 |};
     ServiceMaxConcurrentReconciles := 3;
     TargetgroupBindingMaxConcurrentReconciles := 3 |}.

Arguments APIServer {Scheme_t} r.
Arguments Scheme {Scheme_t} r.
Arguments ClusterName {Scheme_t IngressConfig_t AddonsConfig_t} c.
Arguments RuntimeConfig {Scheme_t IngressConfig_t AddonsConfig_t} c.
Arguments Validate {Scheme_t IngressConfig_t AddonsConfig_t} cfg.

End config.

(** ** Package service: the end-to-end test helper *)

Module service.

(** [time.Duration] values, in nanoseconds. *)
Definition Millisecond : Z := 1000000.
Definition Second : Z := 1000 * Millisecond.
Definition Minute : Z := 60 * Second.

(** [http.StatusOK]. *)
Definition StatusOK : Z := 200.

(** A Go call either returns or panics (index out of range, nil
    dereference). *)
Inductive Outcome (A : Type) : Type :=
| Done (a : A)
| Panic.
Arguments Done {A} a.
Arguments Panic {A}.

(** [v1.Service], the fields this file reads or writes.  A nil map reads
    like an empty one; the ingress slice is [None] when nil, which
    [WaitUntilServiceActive] tells apart from an empty slice. *)
Record ServicePort : Type := { Port : Z }.
Record ServiceSpec : Type := { Ports : list ServicePort }.
Record LoadBalancerIngress : Type := { Hostname : string }.
Record v1Service : Type := {
  Name : string;
  Namespace : string;
  Annotations : gmap string string;
  Spec : ServiceSpec;
  StatusLoadBalancerIngress : option (list LoadBalancerIngress)
}.

(** [&v1.Service{}]. *)
Definition emptyService : v1Service :=
  {| Name := ""; Namespace := ""; Annotations := ∅;
     Spec := {| Ports := [] |}; StatusLoadBalancerIngress := None |}.

(** [ServiceTest]; its [Service] field is a pointer, [None] when nil. *)
Record ServiceTest : Type := { Service : option v1Service }.

(** What the helper does to the outside, in order. *)
Inductive Event (Key : Type) : Type :=
| EvHTTPGet (insecureSkipVerify : bool) (url : string)
| EvSleep (d : Z)
| EvDeleteCertificate (certArn : string)
| EvK8sGet (key : Key)
| EvK8sCreate (svc : v1Service)
| EvK8sUpdate (svc : v1Service).
Arguments EvHTTPGet {Key} insecureSkipVerify url.
Arguments EvSleep {Key} d.
Arguments EvDeleteCertificate {Key} certArn.
Arguments EvK8sGet {Key} key.
Arguments EvK8sCreate {Key} svc.
Arguments EvK8sUpdate {Key} svc.

(** The outside world, [W]: the HTTP endpoint, ACM and the Kubernetes
    client.  A client call on an object returns the error and the object
    as the call left it (the clients write through the pointer). *)
Class Environment (Key W : Type) : Type := {
  httpGet : W -> bool -> string -> Result Z * W;
  acmDeleteCertificate : W -> string -> option error * W;
  k8sGet : W -> Key -> v1Service -> option error * v1Service * W;
  k8sCreate : W -> v1Service -> option error * v1Service * W;
  k8sUpdate : W -> v1Service -> option error * v1Service * W
}.

Record Run (Key W : Type) : Type := {
  env : W;
  events : list (Event Key)
}.
Arguments env {Key W} r.
Arguments events {Key W} r.

Section ServiceTest.

Context {Key W : Type} `{!Environment Key W}.

(** [k8s.NamespacedName], declared in another package. *)
Variable NamespacedName : v1Service -> Key.

(** [wait.PollImmediateUntil(interval, condition, stopCh)], from the
    apimachinery library: it runs [condition], a closure over some state
    [S], some number of times and returns an error or nil. *)
Variable PollImmediateUntil :
  forall S : Type, Z -> (S -> (bool * option error) * S) -> S -> option error * S.

Definition emit (e : Event Key) (r : Run Key W) (w : W) : Run Key W :=
  {| env := w; events := events r ++ [e] |}.

Definition Sleep (d : Z) (r : Run Key W) : Run Key W :=
  emit (EvSleep d) r (env r).

Definition doHTTPGet (insecureSkipVerify : bool) (url : string) (r : Run Key W)
    : Result Z * Run Key W :=
  let '(resp, w) := httpGet (env r) insecureSkipVerify url in
  (resp, emit (EvHTTPGet insecureSkipVerify url) r w).

Definition doDeleteCertificate (certArn : string) (r : Run Key W)
    : option error * Run Key W :=
  let '(err, w) := acmDeleteCertificate (env r) certArn in
  (err, emit (EvDeleteCertificate certArn) r w).

Definition doK8sGet (key : Key) (obj : v1Service) (r : Run Key W)
    : option error * v1Service * Run Key W :=
  let '(err, obj', w) := k8sGet (env r) key obj in
  (err, obj', emit (EvK8sGet key) r w).



(** [listenerTLS]: whether the ssl-cert annotation is there, whatever
    its value; a nil [m.Service] is dereferenced. *)
Definition listenerTLS (m : ServiceTest) : Outcome bool :=
  match Service m with
  | None => Panic
  | Some svc =>
      match Annotations svc
              !! "service.beta.kubernetes.io/aws-load-balancer-ssl-cert" with
      | Some _ => Done true
      | None => Done false
      end
  end.

Definition targetGroupTLS (m : ServiceTest) : bool := false.

(** [fmt.Sprintf("%s://%s:%v/from-tls-client", protocol, hostname, port)]. *)
Definition trafficURL (protocol hostname : string) (port : Z) : string :=
  protocol +:+ "://" +:+ hostname +:+ ":" +:+ pretty port
  +:+ "/from-tls-client".

(** The loop of [SendTrafficToLB], [n] iterations to go: [inl err] is a
    [return err] from inside the loop, [inr noerr] leaving the loop with
    the flag [noerr].  The host name is read from the first ingress entry
    anew in every iteration. *)
Fixpoint sendTrafficLoop (n : nat) (noerr : bool) (tls : bool)
    (protocol : string) (svc : v1Service) (port : Z) (r : Run Key W)
    : Outcome (option error + bool) * Run Key W :=
  match n with
  | O => (Done (inr noerr), r)
  | S n' =>
      match default [] (StatusLoadBalancerIngress svc) with
      | [] => (Panic, r)
      | ingress0 :: _ =>
          let '(resp, r1) :=
            doHTTPGet tls (trafficURL protocol (Hostname ingress0) port) r in
          match resp with
          | Err _ =>
              sendTrafficLoop n' noerr tls protocol svc port (Sleep Minute r1)
          | Ok statusCode =>
              if bool_decide (statusCode <> StatusOK)
              then (Done (inl (Some ("Unexpected HTTP status code "
                                     +:+ pretty statusCode))), r1)
              else if bool_decide (statusCode = StatusOK)
              then (Done (inr true), r1)
              else sendTrafficLoop n' true tls protocol svc port r1
          end
      end
  end.

(** [SendTrafficToLB]: the client skips certificate verification when
    the listener is TLS (and has a ten seconds timeout). *)
Definition SendTrafficToLB (m : ServiceTest) (r : Run Key W)
    : Outcome (option error) * Run Key W :=
  match listenerTLS m, Service m with
  | Done tls, Some svc =>
      let protocol := if tls then "https" else "http" in
      match Ports (Spec svc) with
      | [] => (Panic, r)
      | port0 :: _ =>
          match sendTrafficLoop 10 false tls protocol svc (Port port0) r with
          | (Done (inl err), r') => (Done err, r')
          | (Done (inr noerr), r') =>
              if noerr then (Done None, r')
              else (Done (Some "Unsuccessful after 10 retries"), r')
          | (Panic, r') => (Panic, r')
          end
      end
  | _, _ => (Panic, r)
  end.

(** The loop of [DeleteCertFromACM]: the [err] it tests is a variable of
    the loop body. *)
Fixpoint deleteCertLoop (n : nat) (certArn : string) (r : Run Key W)
    : Run Key W :=
  match n with
  | O => r
  | S n' =>
      let '(err, r1) := doDeleteCertificate certArn r in
      match err with
      | None => r1
      | Some _ => deleteCertLoop n' certArn (Sleep Minute r1)
      end
  end.

(** [DeleteCertFromACM]: the [err] it returns is the one declared before
    the loop, which nothing assigns. *)
Definition DeleteCertFromACM (certArn : string) (r : Run Key W)
    : option error * Run Key W :=
  let err : option error := None in
  (err, deleteCertLoop 10 certArn r).

(** The inner loop of the condition of [WaitUntilServiceActive], at
    index [i] with [n] iterations to go; [inl err] is its
    [return false, err]. *)
Fixpoint serviceActiveLoop (n : nat) (i : Z) (key : Key)
    (observedSvc : v1Service) (r : Run Key W)
    : (option error + unit) * v1Service * Run Key W :=
  match n with
  | O => (inr tt, observedSvc, r)
  | S n' =>
      let '(err, observedSvc', r1) := doK8sGet key observedSvc r in
      match err with
      | Some e =>
          if bool_decide (5 <= i)%Z then (inl (Some e), observedSvc', r1)
          else serviceActiveLoop n' (i + 1) key observedSvc'
                 (Sleep (100 * Millisecond) r1)
      | None =>
          serviceActiveLoop n' (i + 1) key observedSvc'
            (Sleep (100 * Millisecond) r1)
      end
  end.

(** The condition polled by [WaitUntilServiceActive]; its state is the
    object [observedSvc] it shares with its caller, and the run. *)
Definition serviceActiveCondition (svc : v1Service)
    (st : v1Service * Run Key W) : (bool * option error) * (v1Service * Run Key W) :=
  let '(observedSvc, r) := st in
  match serviceActiveLoop 5 0 (NamespacedName svc) observedSvc r with
  | (inl err, observedSvc', r') => ((false, err), (observedSvc', r'))
  | (inr _, observedSvc', r') =>
      match StatusLoadBalancerIngress observedSvc' with
      | Some _ => ((true, None), (observedSvc', r'))
      | None => ((false, None), (observedSvc', r'))
      end
  end.




(** What [n] requests in a row would be answered, and the first answer
    that is a response. *)
Fixpoint httpAttempts (n : nat) (tls : bool) (url : string) (w : W)
    : list (Result Z) :=
  match n with
  | O => []
  | S n' =>
      let '(resp, w') := httpGet w tls url in
      resp :: httpAttempts n' tls url w'
  end.

Fixpoint deleteAttempts (n : nat) (certArn : string) (w : W)
    : list (option error) :=
  match n with
  | O => []
  | S n' =>
      let '(err, w') := acmDeleteCertificate w certArn in
      err :: deleteAttempts n' certArn w'
  end.

End ServiceTest.

(** The number of failed attempts before the first success, and the
    first success, in a list of answers. *)
Fixpoint failuresBefore {A : Type} (fails : A -> bool) (answers : list A) : nat :=
  match answers with
  | [] => 0
  | a :: rest => if fails a then S (failuresBefore fails rest) else 0
  end.

Fixpoint firstSuccess {A : Type} (fails : A -> bool) (answers : list A) : option A :=
  match answers with
  | [] => None
  | a :: rest => if fails a then firstSuccess fails rest else Some a
  end.

Definition isErr {A : Type} (res : Result A) : bool :=
  match res with Err _ => true | Ok _ => false end.

Definition isSomeErr (err : option error) : bool :=
  match err with Some _ => true | None => false end.

(** The annotation [listenerTLS] looks for. *)
Definition sslCertAnnotation : string :=
  "service.beta.kubernetes.io/aws-load-balancer-ssl-cert".

(** A scripted outside world for running the helper: the answers the
    endpoint, ACM and the Kubernetes Get will give, in order, and the
    answers of Create and Update. *)
Record Scripted : Type := {
  httpAnswers : list (Result Z);
  deleteAnswers : list (option error);
  getAnswers : list (option error * v1Service);
  createAnswer : option error;
  updateAnswer : option error
}.

#[global] Instance Scripted_environment : Environment (string * string) Scripted := {
  httpGet := fun w _ _ =>
    match httpAnswers w with
    | [] => (Err "connection refused", w)
    | a :: rest =>
        (a, {| httpAnswers := rest; deleteAnswers := deleteAnswers w;
               getAnswers := getAnswers w; createAnswer := createAnswer w;
               updateAnswer := updateAnswer w |})
    end;
  acmDeleteCertificate := fun w _ =>
    match deleteAnswers w with
    | [] => (Some "certificate in use", w)
    | a :: rest =>
        (a, {| httpAnswers := httpAnswers w; deleteAnswers := rest;
               getAnswers := getAnswers w; createAnswer := createAnswer w;
               updateAnswer := updateAnswer w |})
    end;
  k8sGet := fun w _ obj =>
    match getAnswers w with
    | [] => (Some "not found", obj, w)
    | (err, obj') :: rest =>
        (err, obj',
         {| httpAnswers := httpAnswers w; deleteAnswers := deleteAnswers w;
            getAnswers := rest; createAnswer := createAnswer w;
            updateAnswer := updateAnswer w |})
    end;
  k8sCreate := fun w obj => (createAnswer w, obj, w);
  k8sUpdate := fun w obj => (updateAnswer w, obj, w)
}.



Definition scriptedRun (w : Scripted) : Run (string * string) Scripted :=
  {| env := w; events := [] |}.

(** A service with one port and one load balancer host name. *)
Definition sampleService (annotations : gmap string string) : v1Service :=
  {| Name := "echo"; Namespace := "default"; Annotations := annotations;
     Spec := {| Ports := [ {| Port := 443 |} ] |};
     StatusLoadBalancerIngress :=
       Some [ {| Hostname := "lb.example.com" |} ] |}.

(** A world whose endpoint gives the listed answers. *)
Definition answering (http : list (Result Z)) : Scripted :=
  {| httpAnswers := http; deleteAnswers := []; getAnswers := [];
     createAnswer := None; updateAnswer := None |}.


End service.

Import networking.

(** * Properties *)

(** ** The comparator *)

Lemma CompareOptionForIPPermission_spec (a b : IpPermission) :
  CompareOptionForIPPermission a b = true <->
  IpProtocol a = IpProtocol b /\ FromPort a = FromPort b
  /\ ToPort a = ToPort b /\ Peers a = Peers b.
Proof.
  unfold CompareOptionForIPPermission.
  rewrite !andb_true_iff, !bool_decide_eq_true. tauto.
Qed.

Lemma cmpEqual_true (s t : IPPermissionInfo) :
  cmpEqual s t = true <-> Permission s = Permission t.
Proof.
  unfold cmpEqual. rewrite CompareOptionForIPPermission_spec.
  destruct (Permission s), (Permission t); simpl.
  split; [intros (-> & -> & -> & ->); reflexivity | intros [= -> -> -> ->]; auto].
Qed.

Lemma cmpEqual_refl (s : IPPermissionInfo) : cmpEqual s s = true.
Proof. by apply cmpEqual_true. Qed.

Lemma cmpEqual_sym (s t : IPPermissionInfo) : cmpEqual s t = cmpEqual t s.
Proof.
  destruct (cmpEqual s t) eqn:Hst, (cmpEqual t s) eqn:Hts; try reflexivity.
  - apply cmpEqual_true in Hst. symmetry in Hst.
    apply cmpEqual_true in Hst. congruence.
  - apply cmpEqual_true in Hts. symmetry in Hts.
    apply cmpEqual_true in Hts. congruence.
Qed.

Lemma cmpEqual_trans (s t u : IPPermissionInfo) :
  cmpEqual s t = true -> cmpEqual t u = true -> cmpEqual s u = true.
Proof. rewrite !cmpEqual_true. congruence. Qed.

(** ** The diff engine *)

Lemma containsInTarget_true (s : IPPermissionInfo) (target : list IPPermissionInfo) :
  containsInTarget s target = true <->
  exists t, t ∈ target /\ cmpEqual s t = true.
Proof.
  induction target as [|t target IH]; simpl.
  - split; [discriminate | intros (t & Ht & _); by apply elem_of_nil in Ht].
  - destruct (cmpEqual s t) eqn:Hst.
    + split; [intros _; exists t; split; [left | done] | done].
    + rewrite IH. split.
      * intros (u & Hu & Hsu). exists u. split; [by right | done].
      * intros (u & Hu & Hsu). apply elem_of_cons in Hu as [-> | Hu];
          [congruence | eauto].
Qed.

Lemma containsInTarget_false (s : IPPermissionInfo) (target : list IPPermissionInfo) :
  containsInTarget s target = false <->
  forall t, t ∈ target -> cmpEqual s t = false.
Proof.
  split.
  - intros Hc t Ht. destruct (cmpEqual s t) eqn:Hst; [|done].
    assert (containsInTarget s target = true) by (apply containsInTarget_true; eauto).
    congruence.
  - intros Hall. destruct (containsInTarget s target) eqn:Hc; [|done].
    apply containsInTarget_true in Hc as (t & Ht & Hst).
    rewrite (Hall t Ht) in Hst. discriminate.
Qed.

Lemma containsInTarget_self (s : IPPermissionInfo) (l : list IPPermissionInfo) :
  s ∈ l -> containsInTarget s l = true.
Proof. intros Hs. apply containsInTarget_true. exists s. auto using cmpEqual_refl. Qed.

(** Containment only depends on the rule, not on the labels. *)
Lemma containsInTarget_equal (s t : IPPermissionInfo) (l : list IPPermissionInfo) :
  cmpEqual s t = true -> containsInTarget s l = containsInTarget t l.
Proof.
  intros Hst. induction l as [|u l IH]; simpl; [done|].
  rewrite IH. destruct (cmpEqual s u) eqn:Hsu, (cmpEqual t u) eqn:Htu; try done.
  - rewrite cmpEqual_sym in Hst.
    rewrite (cmpEqual_trans _ _ _ Hst Hsu) in Htu. discriminate.
  - rewrite (cmpEqual_trans _ _ _ Hst Htu) in Hsu. discriminate.
Qed.

(** A loop that appends the kept elements is a filter. *)
Lemma fold_left_append_filter {A : Type} (keep : A -> bool) (l acc : list A) :
  fold_left (fun acc x => if keep x then acc ++ [x] else acc) l acc
  = acc ++ List.filter keep l.
Proof.
  revert acc. induction l as [|x l IH]; intros acc; simpl.
  - by rewrite app_nil_r.
  - rewrite IH. destruct (keep x); [|done].
    by rewrite <- app_assoc.
Qed.

Lemma diff_loop_filter (target source diffs : list IPPermissionInfo) :
  fold_left
    (fun diffs sPermission =>
       if containsInTarget sPermission target then diffs
       else diffs ++ [sPermission])
    source diffs
  = diffs ++ List.filter (fun s => negb (containsInTarget s target)) source.
Proof.
  revert diffs. induction source as [|s source IH]; intros diffs; simpl.
  - by rewrite app_nil_r.
  - rewrite IH. destruct (containsInTarget s target); simpl; [done|].
    by rewrite <- app_assoc.
Qed.

Lemma diffIPPermissionInfos_filter (source target : list IPPermissionInfo) :
  diffIPPermissionInfos source target
  = List.filter (fun s => negb (containsInTarget s target)) source.
Proof. unfold diffIPPermissionInfos. by rewrite diff_loop_filter. Qed.

Lemma elem_of_diff (s : IPPermissionInfo) (source target : list IPPermissionInfo) :
  s ∈ diffIPPermissionInfos source target <->
  s ∈ source /\ containsInTarget s target = false.
Proof.
  rewrite diffIPPermissionInfos_filter, !list_elem_of_In, filter_In.
  by rewrite negb_true_iff.
Qed.

Lemma diff_nil (source target : list IPPermissionInfo) :
  diffIPPermissionInfos source target = [] <->
  forall s, s ∈ source -> containsInTarget s target = true.
Proof.
  split.
  - intros Hnil s Hs. destruct (containsInTarget s target) eqn:Hc; [done|].
    assert (s ∈ diffIPPermissionInfos source target) as Hin
      by (by apply elem_of_diff).
    rewrite Hnil in Hin. by apply elem_of_nil in Hin.
  - intros Hall. destruct (diffIPPermissionInfos source target) as [|s d] eqn:Hd;
      [done|].
    assert (s ∈ diffIPPermissionInfos source target) as Hin
      by (rewrite Hd; left).
    apply elem_of_diff in Hin as [Hs Hc]. rewrite (Hall s Hs) in Hc. discriminate.
Qed.

(** C1. [diffIPPermissionInfos source target] is [source] with exactly
    the elements dropped that have an equal element in [target]: it is
    the filter of [source] by "no element of [target] is equal", so an
    element of [source] is in the result if and only if no element of
    [target] equals it; and two permissions are equal under the
    comparator exactly when protocol, port range and peers coincide,
    whatever their labels. *)
Theorem diffIPPermissionInfos_contract (source target : list IPPermissionInfo) :
  diffIPPermissionInfos source target
    = List.filter (fun s => negb (containsInTarget s target)) source
  /\ (forall s, s ∈ diffIPPermissionInfos source target <->
        s ∈ source /\ forall t, t ∈ target -> cmpEqual s t = false)
  /\ (forall s t, cmpEqual s t = true <->
        IpProtocol (Permission s) = IpProtocol (Permission t)
        /\ FromPort (Permission s) = FromPort (Permission t)
        /\ ToPort (Permission s) = ToPort (Permission t)
        /\ Peers (Permission s) = Peers (Permission t)).
Proof.
  split; [apply diffIPPermissionInfos_filter|]. split.
  - intros s. by rewrite elem_of_diff, containsInTarget_false.
  - intros s t. apply CompareOptionForIPPermission_spec.
Qed.

(** ** The two sets a pass computes *)

Lemma reconcileOptions_default :
  PermissionSelector (reconcileOptions []) = Everything.
Proof. reflexivity. Qed.

Lemma reconcileOptions_with (sel : Selector) :
  PermissionSelector (reconcileOptions [WithPermissionSelector sel]) = sel.
Proof. reflexivity. Qed.

Lemma permissionsToRevoke_filter (reconcileOpts : SecurityGroupReconcileOptions)
    (sgInfo : SecurityGroupInfo) (desired : list IPPermissionInfo) :
  permissionsToRevoke reconcileOpts sgInfo desired
  = List.filter
      (fun p => negb (containsInTarget p desired)
                && inScope (PermissionSelector reconcileOpts) p)
      (Ingress sgInfo).
Proof.
  unfold permissionsToRevoke.
  rewrite (fold_left_append_filter (inScope (PermissionSelector reconcileOpts))).
  rewrite diffIPPermissionInfos_filter. simpl.
  induction (Ingress sgInfo) as [|p l IH]; simpl; [done|].
  destruct (containsInTarget p desired); simpl; [done|].
  destruct (inScope _ p); by rewrite IH.
Qed.

Lemma elem_of_permissionsToRevoke (reconcileOpts : SecurityGroupReconcileOptions)
    (sgInfo : SecurityGroupInfo) (desired : list IPPermissionInfo)
    (p : IPPermissionInfo) :
  p ∈ permissionsToRevoke reconcileOpts sgInfo desired <->
  p ∈ Ingress sgInfo /\ containsInTarget p desired = false
  /\ Matches (PermissionSelector reconcileOpts) (Labels p) = true.
Proof.
  rewrite permissionsToRevoke_filter, !list_elem_of_In, filter_In.
  rewrite andb_true_iff, negb_true_iff. reflexivity.
Qed.

Lemma elem_of_permissionsToGrant (sgInfo : SecurityGroupInfo)
    (desired : list IPPermissionInfo) (p : IPPermissionInfo) :
  p ∈ permissionsToGrant sgInfo desired <->
  p ∈ desired /\ containsInTarget p (Ingress sgInfo) = false.
Proof. apply elem_of_diff. Qed.

Lemma no_elem_nil {A : Type} (l : list A) :
  (forall x, x ∈ l -> False) -> l = [].
Proof. destruct l as [|x l]; [done|]. intros H. destruct (H x). left. Qed.

Lemma nonempty_length {A : Type} (l : list A) :
  l <> [] -> bool_decide (0 < length l) = true.
Proof.
  intros Hl. apply bool_decide_eq_true. destruct l; [done | simpl; lia].
Qed.

(** ** The shapes of a pass *)

Ltac unfold_pass :=
  unfold reconcile, ReconcileIngress, reconcileIngressPass, bind,
    fetchSGInfosByID, revokeSGIngress, authorizeSGIngress, ret, log, outcome;
  simpl.

Lemma pass_fetch_err {M : Type} `{!SecurityGroupManager M}
    (sgID : string) (desired : list IPPermissionInfo)
    (opts : list SecurityGroupReconcileOption) (m m1 : M) (e : error) :
  FetchSGInfosByID m sgID = (Err e, m1) ->
  reconcile sgID desired opts m
  = (Some e, {| manager := m1; calls := [CallFetchSGInfosByID sgID] |}).
Proof. intros Hfetch. unfold_pass. by rewrite Hfetch. Qed.

Section PassShapes.

Context {M : Type} `{!SecurityGroupManager M}.
Variables (sgID : string) (desired : list IPPermissionInfo).
Variable opts : list SecurityGroupReconcileOption.
Variables (m m1 : M) (infos : gmap string SecurityGroupInfo).
Hypothesis Hfetch : FetchSGInfosByID m sgID = (Ok infos, m1).

Let sgInfo := default SecurityGroupInfo_zero (infos !! sgID).
Let toRevoke := permissionsToRevoke (reconcileOptions opts) sgInfo desired.
Let toGrant := permissionsToGrant sgInfo desired.

Lemma pass_noop :
  toRevoke = [] -> toGrant = [] ->
  reconcile sgID desired opts m
  = (None, {| manager := m1; calls := [CallFetchSGInfosByID sgID] |}).
Proof.
  subst toRevoke toGrant sgInfo. intros Hr Hg. unfold_pass.
  rewrite Hfetch. simpl. rewrite Hr, Hg. reflexivity.
Qed.

Lemma pass_revoke_err (e : error) (m2 : M) :
  toRevoke <> [] ->
  RevokeSGIngress m1 sgID toRevoke = (Some e, m2) ->
  reconcile sgID desired opts m
  = (Some e, {| manager := m2;
                calls := [CallFetchSGInfosByID sgID;
                          CallRevokeSGIngress sgID toRevoke] |}).
Proof.
  subst toRevoke toGrant sgInfo. intros Hr Hrev. unfold_pass.
  rewrite Hfetch. simpl. rewrite (nonempty_length _ Hr). simpl.
  rewrite Hrev. reflexivity.
Qed.

Lemma pass_revoke_only (m2 : M) :
  toRevoke <> [] ->
  RevokeSGIngress m1 sgID toRevoke = (None, m2) ->
  toGrant = [] ->
  reconcile sgID desired opts m
  = (None, {| manager := m2;
              calls := [CallFetchSGInfosByID sgID;
                        CallRevokeSGIngress sgID toRevoke] |}).
Proof.
  subst toRevoke toGrant sgInfo. intros Hr Hrev Hg. unfold_pass.
  rewrite Hfetch. simpl. rewrite (nonempty_length _ Hr). simpl.
  rewrite Hrev. simpl. rewrite Hg. reflexivity.
Qed.

Lemma pass_revoke_grant (m2 m3 : M) (r : option error) :
  toRevoke <> [] ->
  RevokeSGIngress m1 sgID toRevoke = (None, m2) ->
  toGrant <> [] ->
  AuthorizeSGIngress m2 sgID toGrant = (r, m3) ->
  reconcile sgID desired opts m
  = (r, {| manager := m3;
           calls := [CallFetchSGInfosByID sgID;
                     CallRevokeSGIngress sgID toRevoke;
                     CallAuthorizeSGIngress sgID toGrant] |}).
Proof.
  subst toRevoke toGrant sgInfo. intros Hr Hrev Hg Hauth. unfold_pass.
  rewrite Hfetch. simpl. rewrite (nonempty_length _ Hr). simpl.
  rewrite Hrev. simpl. rewrite (nonempty_length _ Hg). simpl.
  rewrite Hauth. by destruct r.
Qed.

Lemma pass_grant_only (m2 : M) (r : option error) :
  toRevoke = [] ->
  toGrant <> [] ->
  AuthorizeSGIngress m1 sgID toGrant = (r, m2) ->
  reconcile sgID desired opts m
  = (r, {| manager := m2;
           calls := [CallFetchSGInfosByID sgID;
                     CallAuthorizeSGIngress sgID toGrant] |}).
Proof.
  subst toRevoke toGrant sgInfo. intros Hr Hg Hauth. unfold_pass.
  rewrite Hfetch. simpl. rewrite Hr. simpl.
  rewrite (nonempty_length _ Hg). simpl.
  rewrite Hauth. by destruct r.
Qed.

(** Whatever the outcome, the permissions handed to revoke are the
    revoke set. *)
Lemma pass_revokedBy :
  revokedBy (calls (reconcile sgID desired opts m).2) = toRevoke.
Proof.
  destruct (decide (toRevoke = [])) as [Hr|Hr],
           (decide (toGrant = [])) as [Hg|Hg].
  - rewrite (pass_noop Hr Hg). by rewrite Hr.
  - destruct (AuthorizeSGIngress m1 sgID toGrant) as [r m2] eqn:Hauth.
    rewrite (pass_grant_only m2 r Hr Hg Hauth). by rewrite Hr.
  - destruct (RevokeSGIngress m1 sgID toRevoke) as [[e|] m2] eqn:Hrev.
    + rewrite (pass_revoke_err e m2 Hr Hrev). simpl. apply app_nil_r.
    + rewrite (pass_revoke_only m2 Hr Hrev Hg). simpl. apply app_nil_r.
  - destruct (RevokeSGIngress m1 sgID toRevoke) as [[e|] m2] eqn:Hrev.
    + rewrite (pass_revoke_err e m2 Hr Hrev). simpl. apply app_nil_r.
    + destruct (AuthorizeSGIngress m2 sgID toGrant) as [r m3] eqn:Hauth.
      rewrite (pass_revoke_grant m2 m3 r Hr Hrev Hg Hauth). simpl.
      apply app_nil_r.
Qed.

(** A successful pass: which calls succeeded, and what they carried. *)
Lemma pass_success_inv (w : World M) :
  reconcile sgID desired opts m = (None, w) ->
  exists m2,
    (toRevoke = [] /\ m2 = m1
     \/ toRevoke <> [] /\ RevokeSGIngress m1 sgID toRevoke = (None, m2))
    /\ (toGrant = [] /\ manager w = m2
        \/ toGrant <> [] /\ AuthorizeSGIngress m2 sgID toGrant = (None, manager w))
    /\ revokedBy (calls w) = toRevoke
    /\ grantedBy (calls w) = toGrant.
Proof.
  intros Hrun.
  destruct (decide (toRevoke = [])) as [Hr|Hr],
           (decide (toGrant = [])) as [Hg|Hg].
  - rewrite (pass_noop Hr Hg) in Hrun. injection Hrun as <-.
    exists m1. rewrite Hr, Hg. simpl. tauto.
  - destruct (AuthorizeSGIngress m1 sgID toGrant) as [r m2] eqn:Hauth.
    rewrite (pass_grant_only m2 r Hr Hg Hauth) in Hrun.
    injection Hrun as -> <-. exists m1. simpl.
    rewrite app_nil_r, Hr. tauto.
  - destruct (RevokeSGIngress m1 sgID toRevoke) as [[e|] m2] eqn:Hrev.
    + by rewrite (pass_revoke_err e m2 Hr Hrev) in Hrun.
    + rewrite (pass_revoke_only m2 Hr Hrev Hg) in Hrun. injection Hrun as <-.
      exists m2. simpl. rewrite app_nil_r, Hg. tauto.
  - destruct (RevokeSGIngress m1 sgID toRevoke) as [[e|] m2] eqn:Hrev.
    + by rewrite (pass_revoke_err e m2 Hr Hrev) in Hrun.
    + destruct (AuthorizeSGIngress m2 sgID toGrant) as [r m3] eqn:Hauth.
      rewrite (pass_revoke_grant m2 m3 r Hr Hrev Hg Hauth) in Hrun.
      injection Hrun as -> <-. exists m2. simpl.
      rewrite !app_nil_r. tauto.
Qed.

End PassShapes.

(** ** Fetch failure *)

(** C5. When the fetch of the observed state fails with [e], the pass
    returns [e] itself; the only call it has issued is that fetch, so no
    revoke and no grant, and the manager is left as the fetch left it. *)
Theorem fetch_failure_aborts {M : Type} `{!SecurityGroupManager M}
    (sgID : string) (desired : list IPPermissionInfo)
    (opts : list SecurityGroupReconcileOption) (m m1 : M) (e : error) :
  FetchSGInfosByID m sgID = (Err e, m1) ->
  reconcile sgID desired opts m
  = (Some e, {| manager := m1; calls := [CallFetchSGInfosByID sgID] |}).
Proof. apply pass_fetch_err. Qed.

(** ** Revoke before grant *)

(** C2. In a pass whose revoke set is not empty the revoke call comes
    right after the fetch.  If it fails with [e], the pass returns [e]
    and the trace ends there: grant is not attempted.  If it succeeds and
    the grant set is not empty either, the grant call follows it, and
    the pass returns what grant returned. *)
Theorem revoke_precedes_grant {M : Type} `{!SecurityGroupManager M}
    (sgID : string) (desired : list IPPermissionInfo)
    (opts : list SecurityGroupReconcileOption)
    (m m1 : M) (infos : gmap string SecurityGroupInfo) :
  FetchSGInfosByID m sgID = (Ok infos, m1) ->
  let sgInfo := default SecurityGroupInfo_zero (infos !! sgID) in
  let toRevoke := permissionsToRevoke (reconcileOptions opts) sgInfo desired in
  let toGrant := permissionsToGrant sgInfo desired in
  toRevoke <> [] ->
  (forall e m2,
     RevokeSGIngress m1 sgID toRevoke = (Some e, m2) ->
     reconcile sgID desired opts m
     = (Some e, {| manager := m2;
                   calls := [CallFetchSGInfosByID sgID;
                             CallRevokeSGIngress sgID toRevoke] |}))
  /\ (toGrant <> [] ->
      forall m2 r m3,
        RevokeSGIngress m1 sgID toRevoke = (None, m2) ->
        AuthorizeSGIngress m2 sgID toGrant = (r, m3) ->
        reconcile sgID desired opts m
        = (r, {| manager := m3;
                 calls := [CallFetchSGInfosByID sgID;
                           CallRevokeSGIngress sgID toRevoke;
                           CallAuthorizeSGIngress sgID toGrant] |})).
Proof.
  intros Hfetch sgInfo toRevoke toGrant Hr. split.
  - intros e m2 Hrev. by eapply pass_revoke_err.
  - intros Hg m2 r m3 Hrev Hauth. by eapply pass_revoke_grant.
Qed.

(** ** No-op passes *)

Lemma sameRules_nothing_to_do (reconcileOpts : SecurityGroupReconcileOptions)
    (sgInfo : SecurityGroupInfo) (desired : list IPPermissionInfo) :
  sameRules (Ingress sgInfo) desired ->
  permissionsToRevoke reconcileOpts sgInfo desired = []
  /\ permissionsToGrant sgInfo desired = [].
Proof.
  intros [Hod Hdo]. split.
  - apply no_elem_nil. intros p Hp.
    apply elem_of_permissionsToRevoke in Hp as (Hp & Hc & _).
    rewrite (Hod p Hp) in Hc. discriminate.
  - by apply diff_nil.
Qed.

(** C6. A pass whose revoke set and grant set are both empty returns
    success having issued the fetch and nothing else; this is the case
    in particular when observed and desired state hold the same rules
    under the comparator. *)
Theorem empty_sets_no_mutation {M : Type} `{!SecurityGroupManager M}
    (sgID : string) (desired : list IPPermissionInfo)
    (opts : list SecurityGroupReconcileOption)
    (m m1 : M) (infos : gmap string SecurityGroupInfo) :
  FetchSGInfosByID m sgID = (Ok infos, m1) ->
  let sgInfo := default SecurityGroupInfo_zero (infos !! sgID) in
  let noop := (None, {| manager := m1; calls := [CallFetchSGInfosByID sgID] |}) in
  (permissionsToRevoke (reconcileOptions opts) sgInfo desired = [] ->
   permissionsToGrant sgInfo desired = [] ->
   reconcile sgID desired opts m = noop)
  /\ (sameRules (Ingress sgInfo) desired ->
      reconcile sgID desired opts m = noop
      /\ List.filter isMutation (calls (reconcile sgID desired opts m).2) = []).
Proof.
  intros Hfetch sgInfo noop. split.
  - intros Hr Hg. by eapply pass_noop.
  - intros Hsame.
    destruct (sameRules_nothing_to_do (reconcileOptions opts) sgInfo desired Hsame)
      as [Hr Hg].
    assert (reconcile sgID desired opts m = noop) as ->
      by (by eapply pass_noop).
    done.
Qed.

(** ** Labels do not matter to the diff *)


(** ** Selector-scoped revocation *)

Lemma list_difference_pair {A : Type} `{!EqDecision A} (x y : A) :
  x <> y -> list_difference [x; y] [x] = [y].
Proof.
  intros Hne. simpl.
  destruct (decide_rel elem_of x [x]) as [_|Hx]; [|destruct Hx; left].
  destruct (decide_rel elem_of y [x]) as [Hy|_]; [|done].
  apply list_elem_of_singleton in Hy. congruence.
Qed.

Lemma selector_pair_sets (sel : Selector) (A B : IPPermissionInfo)
    (sgInfo : SecurityGroupInfo) :
  Ingress sgInfo = [A; B] ->
  Matches sel (Labels A) = true ->
  Matches sel (Labels B) = false ->
  permissionsToRevoke {| PermissionSelector := sel |} sgInfo [] = [A]
  /\ permissionsToGrant sgInfo [] = [].
Proof.
  intros Hobs HA HB. split; [|done].
  rewrite permissionsToRevoke_filter, Hobs. unfold inScope. simpl.
  by rewrite HA, HB.
Qed.

(** C3. Once the observed state is fetched, the permissions the pass
    hands to revoke are exactly the observed ones that have no equal in
    the desired set and whose labels the selector matches; an observed
    permission the selector does not match is never among them.  With
    [A] (matched) and [B] (not matched) observed and nothing desired, the
    pass issues the fetch and one revoke of [A] alone; against the
    in-memory manager that leaves exactly [B] in the group. *)
Theorem revoke_within_selector {M : Type} `{!SecurityGroupManager M}
    (sgID : string) (desired : list IPPermissionInfo)
    (opts : list SecurityGroupReconcileOption)
    (m m1 : M) (infos : gmap string SecurityGroupInfo) :
  FetchSGInfosByID m sgID = (Ok infos, m1) ->
  let observed := Ingress (default SecurityGroupInfo_zero (infos !! sgID)) in
  let sel := PermissionSelector (reconcileOptions opts) in
  let revoked := revokedBy (calls (reconcile sgID desired opts m).2) in
  revoked
    = List.filter (fun p => negb (containsInTarget p desired) && inScope sel p)
        observed
  /\ (forall p, p ∈ revoked <->
        p ∈ observed /\ (forall d, d ∈ desired -> cmpEqual p d = false)
        /\ Matches sel (Labels p) = true)
  /\ (forall p, p ∈ observed -> Matches sel (Labels p) = false -> p ∉ revoked)
  /\ (forall A B,
        observed = [A; B] -> desired = [] ->
        Matches sel (Labels A) = true -> Matches sel (Labels B) = false ->
        calls (reconcile sgID desired opts m).2
        = [CallFetchSGInfosByID sgID; CallRevokeSGIngress sgID [A]])
  /\ (forall (owned : Selector) A B,
        Matches owned (Labels A) = true -> Matches owned (Labels B) = false ->
        let fake := fakeWith sgID [A; B] in
        reconcile sgID [] [WithPermissionSelector owned] fake
        = (None, {| manager := setIngress fake sgID [B];
                    calls := [CallFetchSGInfosByID sgID;
                              CallRevokeSGIngress sgID [A]] |})).
Proof.
  intros Hfetch observed sel revoked.
  assert (revoked = permissionsToRevoke (reconcileOptions opts)
                      (default SecurityGroupInfo_zero (infos !! sgID)) desired)
    as Hrev by (by eapply pass_revokedBy).
  split; [by rewrite Hrev, permissionsToRevoke_filter|].
  split; [intros p; by rewrite Hrev, elem_of_permissionsToRevoke,
                      containsInTarget_false|].
  split.
  { intros p _ Hp. rewrite Hrev, elem_of_permissionsToRevoke.
    intros (_ & _ & Hsel). fold sel in Hsel. congruence. }
  split.
  - intros A B Hobs -> HA HB.
    destruct (selector_pair_sets sel A B _ Hobs HA HB) as [Hr Hg].
    assert (permissionsToRevoke (reconcileOptions opts)
              (default SecurityGroupInfo_zero (infos !! sgID)) [] = [A]) as Hr'
      by (rewrite <- Hr; reflexivity).
    assert (permissionsToRevoke (reconcileOptions opts)
              (default SecurityGroupInfo_zero (infos !! sgID)) [] <> []) as Hne
      by (by rewrite Hr').
    destruct (RevokeSGIngress m1 sgID [A]) as [[e|] m2] eqn:Hcall.
    + rewrite (pass_revoke_err sgID [] opts m m1 infos Hfetch e m2 Hne);
        rewrite Hr'; done.
    + rewrite (pass_revoke_only sgID [] opts m m1 infos Hfetch m2 Hne);
        rewrite ?Hr'; done.
  - intros owned A B HA HB fake.
    assert (A <> B) as Hne by (intros ->; congruence).
    assert (FetchSGInfosByID fake sgID
            = (Ok {[ sgID := {| SecurityGroupID := sgID; Ingress := [A; B] |} ]},
               fake)) as Hf.
    { simpl. unfold fakeFetch. simpl. by rewrite lookup_singleton_eq. }
    set (sgInfo := default SecurityGroupInfo_zero
                     (({[ sgID := {| SecurityGroupID := sgID;
                                     Ingress := [A; B] |} ]}
                       : gmap string SecurityGroupInfo) !! sgID)).
    assert (Ingress sgInfo = [A; B]) as Hobs
      by (subst sgInfo; by rewrite lookup_singleton_eq).
    destruct (selector_pair_sets owned A B sgInfo Hobs HA HB) as [Hr Hg].
    assert (permissionsToRevoke (reconcileOptions [WithPermissionSelector owned])
              sgInfo [] = [A]) as Hr' by (rewrite <- Hr; reflexivity).
    assert (RevokeSGIngress fake sgID [A]
            = (None, setIngress fake sgID [B])) as Hcall.
    { simpl. unfold fakeRevoke. simpl. rewrite lookup_singleton_eq.
      cbn [Ingress]. by rewrite (list_difference_pair A B Hne). }
    rewrite (pass_revoke_only sgID [] _ fake fake _ Hf (setIngress fake sgID [B]));
      fold sgInfo; rewrite ?Hr'; done.
Qed.

(** ** What a successful pass leaves behind *)

Section Convergence.

Variable reconcileOpts : SecurityGroupReconcileOptions.
Variables (sgInfo : SecurityGroupInfo) (desired : list IPPermissionInfo).
Variable final : list IPPermissionInfo.

Let observed := Ingress sgInfo.
Let sel := PermissionSelector reconcileOpts.
Let toRevoke := permissionsToRevoke reconcileOpts sgInfo desired.
Let toGrant := permissionsToGrant sgInfo desired.

(** [final] is what is left of [observed] once [toRevoke] is removed and
    [toGrant] added: nothing else came in, nothing that differs from
    every revoked rule went away. *)
Hypothesis final_sound : forall p,
  p ∈ final -> (p ∈ observed /\ p ∉ toRevoke) \/ p ∈ toGrant.
Hypothesis final_keeps : forall p,
  p ∈ observed -> containsInTarget p toRevoke = false -> p ∈ final.
Hypothesis final_granted : forall p, p ∈ toGrant -> p ∈ final.

Lemma desired_covered (d : IPPermissionInfo) :
  d ∈ desired -> containsInTarget d final = true.
Proof.
  intros Hd. destruct (containsInTarget d observed) eqn:Hobs.
  - apply containsInTarget_true in Hobs as (o & Ho & Hdo).
    apply containsInTarget_true. exists o. split; [|done].
    apply final_keeps; [done|].
    apply containsInTarget_false. intros r Hr.
    destruct (cmpEqual o r) eqn:Hor; [|done].
    apply elem_of_permissionsToRevoke in Hr as (_ & Hrd & _).
    assert (cmpEqual r d = true) as Hrd'
      by (rewrite cmpEqual_sym; by eapply cmpEqual_trans).
    assert (containsInTarget r desired = true)
      by (apply containsInTarget_true; eauto).
    congruence.
  - apply containsInTarget_self, final_granted.
    by apply elem_of_permissionsToGrant.
Qed.

Lemma final_classified (f : IPPermissionInfo) :
  f ∈ final ->
  containsInTarget f desired = true \/ (f ∈ observed /\ inScope sel f = false).
Proof.
  intros Hf. destruct (final_sound f Hf) as [[Hobs Hnr] | Hg].
  - destruct (containsInTarget f desired) eqn:Hc; [by left|].
    destruct (inScope sel f) eqn:Hs; [|by right].
    destruct Hnr. by apply elem_of_permissionsToRevoke.
  - apply elem_of_permissionsToGrant in Hg as [Hd _].
    left. by apply containsInTarget_self.
Qed.

(** Diffing again from [final] finds nothing to revoke and nothing to
    grant. *)
Lemma converged_nothing_to_do (sgInfo' : SecurityGroupInfo) :
  Ingress sgInfo' = final ->
  permissionsToRevoke reconcileOpts sgInfo' desired = []
  /\ permissionsToGrant sgInfo' desired = [].
Proof.
  intros Hfinal. split.
  - apply no_elem_nil. intros p Hp.
    apply elem_of_permissionsToRevoke in Hp as (Hp & Hc & Hs).
    rewrite Hfinal in Hp.
    destruct (final_classified p Hp) as [Hc' | [_ Hs']]; [congruence|].
    unfold inScope, sel in Hs'. congruence.
  - apply diff_nil. intros d Hd. rewrite Hfinal. by apply desired_covered.
Qed.

End Convergence.

Lemma stateAfter_sound (observed revoked granted : list IPPermissionInfo)
    (trace : list Call) (p : IPPermissionInfo) :
  revokedBy trace = revoked -> grantedBy trace = granted ->
  p ∈ stateAfter observed trace <->
  (p ∈ observed /\ p ∉ revoked) \/ p ∈ granted.
Proof.
  intros <- <-. unfold stateAfter.
  by rewrite elem_of_app, list_elem_of_difference.
Qed.

Lemma not_contained_not_elem (p : IPPermissionInfo) (l : list IPPermissionInfo) :
  containsInTarget p l = false -> p ∉ l.
Proof. intros Hc Hp. rewrite (containsInTarget_self p l Hp) in Hc. discriminate. Qed.

(** C4, as the code has it.  After a successful pass, the state
    (observed - revoked) + granted holds the same rules, under the
    comparator, as the whole desired set together with the observed
    permissions outside the selector's scope: every desired permission
    has an equal in it, every observed permission outside the scope is
    still in it, labels included, and it holds nothing else.  The grant
    set is [Diff(desired, observed)], computed without the selector, so
    every desired permission with no equal in the observed state is
    granted. *)
Theorem successful_pass_converges {M : Type} `{!SecurityGroupManager M}
    (sgID : string) (desired : list IPPermissionInfo)
    (opts : list SecurityGroupReconcileOption)
    (m m1 : M) (infos : gmap string SecurityGroupInfo) (w : World M) :
  FetchSGInfosByID m sgID = (Ok infos, m1) ->
  reconcile sgID desired opts m = (None, w) ->
  let observed := Ingress (default SecurityGroupInfo_zero (infos !! sgID)) in
  let sel := PermissionSelector (reconcileOptions opts) in
  let final := stateAfter observed (calls w) in
  sameRules final
    (desired ++ List.filter (fun p => negb (inScope sel p)) observed)
  /\ (forall o, o ∈ observed -> inScope sel o = false -> o ∈ final)
  /\ (forall f, f ∈ final ->
        containsInTarget f desired = true
        \/ (f ∈ observed /\ inScope sel f = false))
  /\ grantedBy (calls w) = diffIPPermissionInfos desired observed
  /\ (forall d, d ∈ desired -> containsInTarget d observed = false ->
        d ∈ grantedBy (calls w)).
Proof.
  intros Hfetch Hrun observed sel final.
  set (sgInfo := default SecurityGroupInfo_zero (infos !! sgID)).
  destruct (pass_success_inv sgID desired opts m m1 infos Hfetch w Hrun)
    as (m2 & _ & _ & Hrev & Hgr).
  fold sgInfo in Hrev, Hgr.
  pose proof (fun p => stateAfter_sound observed _ _ (calls w) p Hrev Hgr) as Hfinal.
  fold final in Hfinal.
  assert (forall o, o ∈ observed -> inScope sel o = false -> o ∈ final) as Hout.
  { intros o Ho Hs. apply Hfinal. left. split; [done|].
    intros Hr. apply elem_of_permissionsToRevoke in Hr as (_ & _ & Hs').
    unfold inScope, sel in Hs. congruence. }
  assert (forall f, f ∈ final ->
            containsInTarget f desired = true
            \/ (f ∈ observed /\ inScope sel f = false)) as Hclass.
  { intros f Hf.
    apply (final_classified (reconcileOptions opts) sgInfo desired final);
      [|done].
    intros p Hp. by apply Hfinal. }
  assert (forall d, d ∈ desired -> containsInTarget d final = true) as Hcov.
  { intros d Hd.
    apply (desired_covered (reconcileOptions opts) sgInfo desired final);
      [| |done].
    - intros p Hp Hc. apply Hfinal. left. split; [done|].
      by apply not_contained_not_elem.
    - intros p Hp. apply Hfinal. by right. }
  split; [|split; [done|split; [done|split; [done|]]]].
  - split.
    + intros f Hf. apply containsInTarget_true.
      destruct (Hclass f Hf) as [Hc | [Ho Hs]].
      * apply containsInTarget_true in Hc as (d & Hd & Hfd).
        exists d. split; [|done]. apply elem_of_app. by left.
      * exists f. split; [|apply cmpEqual_refl].
        apply elem_of_app. right. apply list_elem_of_In, filter_In.
        split; [by apply list_elem_of_In | by rewrite Hs].
    + intros p Hp. apply elem_of_app in Hp as [Hd | Hp]; [by apply Hcov|].
      apply list_elem_of_In, filter_In in Hp as [Hp Hs].
      apply containsInTarget_self, Hout; [by apply list_elem_of_In|].
      by apply negb_true_iff.
  - intros d Hd Hc. rewrite Hgr. by apply elem_of_permissionsToGrant.
Qed.

(** ** The in-memory manager honours the contract *)

Lemma fakeIngressOf_setIngress (m : FakeManager) (sgID : string)
    (ingress : list IPPermissionInfo) :
  fakeIngressOf (setIngress m sgID ingress) sgID = ingress.
Proof. unfold fakeIngressOf, setIngress. simpl. by rewrite lookup_insert_eq. Qed.

Lemma fake_fetch_current (m : FakeManager) (sgID : string)
    (infos : gmap string SecurityGroupInfo) (m' : FakeManager) :
  FetchSGInfosByID m sgID = (Ok infos, m') ->
  Ingress (default SecurityGroupInfo_zero (infos !! sgID)) = fakeIngressOf m sgID
  /\ fakeIngressOf m' sgID = fakeIngressOf m sgID.
Proof.
  simpl. unfold fakeFetch, fakeIngressOf.
  destruct (fetchErr m); [done|].
  destruct (groups m !! sgID) as [info|] eqn:Hg; [|done].
  intros [= <- <-]. by rewrite lookup_singleton_eq, Hg.
Qed.

Lemma fake_revoke_removes (m : FakeManager) (sgID : string)
    (ps : list IPPermissionInfo) (m' : FakeManager) :
  RevokeSGIngress m sgID ps = (None, m') ->
  (forall p, p ∈ fakeIngressOf m' sgID -> p ∈ fakeIngressOf m sgID /\ p ∉ ps)
  /\ (forall p, p ∈ fakeIngressOf m sgID -> containsInTarget p ps = false ->
                p ∈ fakeIngressOf m' sgID).
Proof.
  simpl. unfold fakeRevoke.
  destruct (revokeErr m); [done|].
  destruct (groups m !! sgID) as [info|] eqn:Hg; [|done].
  intros [= <-]. rewrite fakeIngressOf_setIngress.
  unfold fakeIngressOf. rewrite Hg. simpl. split.
  - intros p Hp. by apply list_elem_of_difference in Hp.
  - intros p Hp Hc. apply list_elem_of_difference.
    split; [done | by apply not_contained_not_elem].
Qed.

Lemma fake_authorize_adds (m : FakeManager) (sgID : string)
    (ps : list IPPermissionInfo) (m' : FakeManager) :
  AuthorizeSGIngress m sgID ps = (None, m') ->
  forall p, p ∈ fakeIngressOf m' sgID <-> p ∈ fakeIngressOf m sgID \/ p ∈ ps.
Proof.
  simpl. unfold fakeAuthorize.
  destruct (authorizeErr m); [done|].
  destruct (groups m !! sgID) as [info|] eqn:Hg; [|done].
  intros [= <-] p. rewrite fakeIngressOf_setIngress.
  unfold fakeIngressOf. rewrite Hg. simpl. apply elem_of_app.
Qed.

#[global] Instance FakeManager_faithful : FaithfulManager FakeManager := {|
  ingressOf := fakeIngressOf;
  fetch_current := fake_fetch_current;
  revoke_removes := fake_revoke_removes;
  authorize_adds := fake_authorize_adds
|}.

(** ** Running the pass again *)

(** C8, as the code has it.  Against a manager that honours the
    contract, a pass that succeeded is followed by a pass that issues
    its fetch and nothing else: no revoke, no grant. *)
Theorem second_pass_no_mutation {M : Type} `{!SecurityGroupManager M}
    `{!FaithfulManager M}
    (sgID : string) (desired : list IPPermissionInfo)
    (opts : list SecurityGroupReconcileOption) (m : M) (w1 : World M) :
  reconcile sgID desired opts m = (None, w1) ->
  let w2 := (reconcile sgID desired opts (manager w1)).2 in
  calls w2 = [CallFetchSGInfosByID sgID]
  /\ List.filter isMutation (calls w2) = [].
Proof.
  intros Hrun w2.
  assert (calls w2 = [CallFetchSGInfosByID sgID]) as Hcalls; [|by rewrite Hcalls].
  subst w2.
  destruct (FetchSGInfosByID m sgID) as [[infos|e] m1] eqn:Hfetch;
    [|by rewrite (pass_fetch_err sgID desired opts m m1 e Hfetch) in Hrun].
  destruct (FetchSGInfosByID (manager w1) sgID) as [[infos2|e] m1'] eqn:Hfetch2;
    [|by rewrite (pass_fetch_err sgID desired opts _ m1' e Hfetch2)].
  set (sgInfo := default SecurityGroupInfo_zero (infos !! sgID)).
  set (sgInfo2 := default SecurityGroupInfo_zero (infos2 !! sgID)).
  destruct (fetch_current m sgID infos m1 Hfetch) as [Hobs Hm1].
  destruct (fetch_current (manager w1) sgID infos2 m1' Hfetch2) as [Hobs2 _].
  fold sgInfo in Hobs. fold sgInfo2 in Hobs2.
  destruct (pass_success_inv sgID desired opts m m1 infos Hfetch w1 Hrun)
    as (m2 & Hrev & Hgr & _ & _).
  fold sgInfo in Hrev, Hgr.
  set (toRevoke := permissionsToRevoke (reconcileOptions opts) sgInfo desired)
    in *.
  set (toGrant := permissionsToGrant sgInfo desired) in *.
  (* the state revoke leaves *)
  assert ((forall p, p ∈ ingressOf m2 sgID ->
             p ∈ Ingress sgInfo /\ p ∉ toRevoke)
          /\ (forall p, p ∈ Ingress sgInfo ->
                containsInTarget p toRevoke = false -> p ∈ ingressOf m2 sgID))
    as [Hm2a Hm2b].
  { destruct Hrev as [[Hr ->] | [_ Hcall]].
    - rewrite Hm1, <- Hobs, Hr. split; [|done].
      intros p Hp. split; [done | apply not_elem_of_nil].
    - destruct (revoke_removes m1 sgID toRevoke m2 Hcall) as [Ha Hb].
      rewrite Hm1, <- Hobs in Ha, Hb. done. }
  (* the state grant leaves *)
  assert (forall p, p ∈ ingressOf (manager w1) sgID <->
            p ∈ ingressOf m2 sgID \/ p ∈ toGrant) as Hw1.
  { destruct Hgr as [[Hg ->] | [_ Hcall]].
    - intros p. rewrite Hg. split; [by left|].
      intros [Hp | Hp]; [done | by apply elem_of_nil in Hp].
    - apply (authorize_adds m2 sgID toGrant _ Hcall). }
  destruct (converged_nothing_to_do (reconcileOptions opts) sgInfo desired
              (ingressOf (manager w1) sgID)) with (sgInfo' := sgInfo2)
    as [Hr2 Hg2]; [| | |done|].
  - intros p Hp. apply Hw1 in Hp as [Hp | Hp]; [left; by apply Hm2a | by right].
  - intros p Hp Hc. apply Hw1. left. by apply Hm2b.
  - intros p Hp. apply Hw1. by right.
  - by rewrite (pass_noop sgID desired opts _ m1' infos2 Hfetch2 Hr2 Hg2).
Qed.

(** ** Validation of the controller configuration *)

Import config.

(** C9. [Validate] returns nil exactly when the cluster name is not
    empty and the runtime scheme is not nil; an empty cluster name is
    reported, a nil scheme is reported, and two configurations with the
    same cluster name and schemes that are both nil or both set validate
    alike, whatever their other fields hold. *)
Theorem Validate_spec {Scheme_t IngressConfig_t AddonsConfig_t : Type}
    (cfg : ControllerConfig Scheme_t IngressConfig_t AddonsConfig_t) :
  (Validate cfg = None <->
     ClusterName cfg <> "" /\ Scheme (RuntimeConfig cfg) <> None)
  /\ (ClusterName cfg = "" ->
      Validate cfg = Some "Kubernetes cluster name must be specified")
  /\ (ClusterName cfg <> "" -> Scheme (RuntimeConfig cfg) = None ->
      Validate cfg = Some "Controller runtime scheme not initialzied")
  /\ (Scheme (RuntimeConfig cfg) = None -> Validate cfg <> None)
  /\ (forall cfg' : ControllerConfig Scheme_t IngressConfig_t AddonsConfig_t,
        ClusterName cfg' = ClusterName cfg ->
        (Scheme (RuntimeConfig cfg') = None <-> Scheme (RuntimeConfig cfg) = None) ->
        Validate cfg' = Validate cfg).
Proof.
  assert (forall s : string, String.length s = 0 <-> s = "") as Hlen
    by (intros [|? ?]; simpl; split; done).
  unfold Validate. repeat split.
  - case_bool_decide as Hn; [done|]. by rewrite Hlen in Hn.
  - case_bool_decide as Hn; [done|]. by destruct (Scheme (RuntimeConfig cfg)).
  - intros [Hn Hs]. rewrite bool_decide_eq_false_2 by (by rewrite Hlen).
    by destruct (Scheme (RuntimeConfig cfg)).
  - intros Hn. by rewrite bool_decide_eq_true_2 by (by rewrite Hlen).
  - intros Hn Hs. rewrite bool_decide_eq_false_2 by (by rewrite Hlen).
    by rewrite Hs.
  - intros Hs. case_bool_decide; [done|]. by rewrite Hs.
  - intros cfg' Hn Hs. rewrite Hn.
    case_bool_decide; [done|].
    destruct (Scheme (RuntimeConfig cfg')), (Scheme (RuntimeConfig cfg));
      try done.
    + discriminate (proj2 Hs eq_refl).
    + discriminate (proj1 Hs eq_refl).
Qed.

(** * The scenarios, run *)

Import scenario.

(** The fetch fails: the pass reports the fetch error after that one
    call. *)
Lemma fetch_failure_aborts_witness :
  reconcile sg [permD] [] (scripted [permA] (Some "fetch failed") None None)
  = (Some "fetch failed",
     {| manager := scripted [permA] (Some "fetch failed") None None;
        calls := [CallFetchSGInfosByID sg] |}).
Proof.
  apply (fetch_failure_aborts sg [permD] []
           (scripted [permA] (Some "fetch failed") None None)).
  reflexivity.
Defined.

(** Observed (tcp,443,0.0.0.0/0), desired (tcp,443,10.0.0.0/8): a failing
    revoke ends the pass; otherwise revoke, then grant. *)
Lemma revoke_precedes_grant_witness :
  reconcile sg [permD] [] (scripted [permA] None (Some "revoke failed") None)
  = (Some "revoke failed",
     {| manager := scripted [permA] None (Some "revoke failed") None;
        calls := [CallFetchSGInfosByID sg; CallRevokeSGIngress sg [permA]] |})
  /\ reconcile sg [permD] [] (scripted [permA] None None None)
     = (None,
        {| manager := setIngress
                        (setIngress (scripted [permA] None None None) sg [])
                        sg [permD];
           calls := [CallFetchSGInfosByID sg; CallRevokeSGIngress sg [permA];
                     CallAuthorizeSGIngress sg [permD]] |}).
Proof.
  split.
  - destruct (revoke_precedes_grant sg [permD] []
                (scripted [permA] None (Some "revoke failed") None)
                (scripted [permA] None (Some "revoke failed") None)
                {[ sg := {| SecurityGroupID := sg; Ingress := [permA] |} ]})
      as [Herr _]; [reflexivity | vm_compute; discriminate |].
    apply Herr. reflexivity.
  - destruct (revoke_precedes_grant sg [permD] []
                (scripted [permA] None None None)
                (scripted [permA] None None None)
                {[ sg := {| SecurityGroupID := sg; Ingress := [permA] |} ]})
      as [_ Hok]; [reflexivity | vm_compute; discriminate |].
    apply (Hok ltac:(vm_compute; discriminate)
             (setIngress (scripted [permA] None None None) sg []));
      reflexivity.
Defined.

(** Observed [A] (owned) and [B] (not owned), nothing desired, selector
    "owned": [A] is revoked, [B] is not. *)
Lemma revoke_within_selector_witness :
  revokedBy
    (calls (reconcile sg [] [WithPermissionSelector owned]
              (scripted [permA; permB] None None None)).2)
  = [permA]
  /\ calls (reconcile sg [] [WithPermissionSelector owned]
              (scripted [permA; permB] None None None)).2
     = [CallFetchSGInfosByID sg; CallRevokeSGIngress sg [permA]].
Proof.
  destruct (revoke_within_selector sg [] [WithPermissionSelector owned]
              (scripted [permA; permB] None None None)
              (scripted [permA; permB] None None None)
              {[ sg := {| SecurityGroupID := sg; Ingress := [permA; permB] |} ]})
    as (Hfilter & _ & _ & Hpair & _); [reflexivity|].
  split; [exact Hfilter|].
  apply (Hpair permA permB); reflexivity.
Defined.

(** Observed [A], [B]; desired [D]; selector "owned": [B] stays, [D] is
    granted. *)
Lemma successful_pass_converges_witness :
  let w := (reconcile sg [permD] [WithPermissionSelector owned]
              (scripted [permA; permB] None None None)).2 in
  permB ∈ stateAfter [permA; permB] (calls w)
  /\ grantedBy (calls w) = [permD].
Proof.
  intros w.
  destruct (successful_pass_converges sg [permD] [WithPermissionSelector owned]
              (scripted [permA; permB] None None None)
              (scripted [permA; permB] None None None)
              {[ sg := {| SecurityGroupID := sg; Ingress := [permA; permB] |} ]}
              w)
    as (_ & Hout & _ & Hgrant & _);
    [reflexivity | vm_compute; reflexivity |].
  split; [|exact Hgrant].
  apply Hout; [right; left | reflexivity].
Defined.

(** Observed [A]; desired [A] under other labels: the fetch and nothing
    else. *)
Lemma empty_sets_no_mutation_witness :
  reconcile sg [permA_unlabelled] [] (scripted [permA] None None None)
  = (None, {| manager := scripted [permA] None None None;
              calls := [CallFetchSGInfosByID sg] |}).
Proof.
  destruct (empty_sets_no_mutation sg [permA_unlabelled] []
              (scripted [permA] None None None)
              (scripted [permA] None None None)
              {[ sg := {| SecurityGroupID := sg; Ingress := [permA] |} ]})
    as [Hempty _]; [reflexivity|].
  apply Hempty; reflexivity.
Defined.

(** After the successful pass above, the next pass only fetches. *)
Lemma second_pass_no_mutation_witness :
  let w1 := (reconcile sg [permD] [WithPermissionSelector owned]
               (scripted [permA; permB] None None None)).2 in
  calls (reconcile sg [permD] [WithPermissionSelector owned] (manager w1)).2
  = [CallFetchSGInfosByID sg].
Proof.
  intros w1.
  destruct (second_pass_no_mutation sg [permD] [WithPermissionSelector owned]
              (scripted [permA; permB] None None None) w1)
    as [Hcalls _]; [vm_compute; reflexivity|].
  exact Hcalls.
Defined.

(** A desired permission outside the selector's scope is granted all the
    same: the state after the pass is not the desired set cut down to
    the scope plus the observed permissions outside it. *)
Lemma scope_restricted_target_refuted :
  ~ (forall (M : Type) (mgr : SecurityGroupManager M)
            (sgID : string) (desired : list IPPermissionInfo)
            (opts : list SecurityGroupReconcileOption)
            (m m1 : M) (infos : gmap string SecurityGroupInfo) (w : World M),
       FetchSGInfosByID m sgID = (Ok infos, m1) ->
       reconcile sgID desired opts m = (None, w) ->
       let observed := Ingress (default SecurityGroupInfo_zero (infos !! sgID)) in
       let sel := PermissionSelector (reconcileOptions opts) in
       sameRules (stateAfter observed (calls w))
         (List.filter (inScope sel) desired
          ++ List.filter (fun p => negb (inScope sel p)) observed)).
Proof.
  intros H.
  specialize (H FakeManager _ sg [permD] [WithPermissionSelector owned]
                (scripted [] None None None) (scripted [] None None None)
                {[ sg := {| SecurityGroupID := sg; Ingress := [] |} ]}
                (reconcile sg [permD] [WithPermissionSelector owned]
                   (scripted [] None None None)).2
                eq_refl ltac:(vm_compute; reflexivity)).
  destruct H as [H _]. specialize (H permD).
  assert (containsInTarget permD [] = true) as Hfalse; [|discriminate Hfalse].
  apply H. vm_compute. left.
Qed.

(** A pass whose grant failed is followed by a pass that grants again:
    without the first pass succeeding, the second one is not free of
    mutation calls. *)
Lemma failed_pass_is_retried :
  ~ (forall (M : Type) (mgr : SecurityGroupManager M) (F : FaithfulManager M)
            (sgID : string) (desired : list IPPermissionInfo)
            (opts : list SecurityGroupReconcileOption) (m : M),
       let w1 := (reconcile sgID desired opts m).2 in
       let w2 := (reconcile sgID desired opts (manager w1)).2 in
       List.filter isMutation (calls w2) = []).
Proof.
  intros H.
  specialize (H FakeManager _ _ sg [permD] []
                (scripted [] None None (Some "grant failed"))).
  vm_compute in H. discriminate H.
Qed.

(** No cluster name, no scheme, and both. *)
Lemma Validate_spec_witness :
  Validate (sampleConfig "" (Some tt))
    = Some "Kubernetes cluster name must be specified"
  /\ Validate (sampleConfig "prod" None)
      = Some "Controller runtime scheme not initialzied"
  /\ Validate (sampleConfig "prod" (Some tt)) = None.
Proof.
  split; [|split].
  - destruct (Validate_spec (sampleConfig "" (Some tt))) as (_ & Hname & _).
    apply Hname. reflexivity.
  - destruct (Validate_spec (sampleConfig "prod" None)) as (_ & _ & Hscheme & _).
    apply Hscheme; [discriminate | reflexivity].
  - destruct (Validate_spec (sampleConfig "prod" (Some tt))) as (Hiff & _).
    apply Hiff. split; discriminate.
Defined.

(** * Further properties of the diff and of the pass *)

Lemma containsInTarget_app (s : IPPermissionInfo) (t t' : list IPPermissionInfo) :
  containsInTarget s (t ++ t') = containsInTarget s t || containsInTarget s t'.
Proof.
  induction t as [|u t IH]; simpl; [done|].
  by destruct (cmpEqual s u).
Qed.

Lemma diff_app_source (s s' t : list IPPermissionInfo) :
  diffIPPermissionInfos (s ++ s') t
  = diffIPPermissionInfos s t ++ diffIPPermissionInfos s' t.
Proof. rewrite !diffIPPermissionInfos_filter. apply List.filter_app. Qed.

Lemma diff_nil_target (s : IPPermissionInfo) (source : list IPPermissionInfo) :
  diffIPPermissionInfos (s :: source) [] = s :: diffIPPermissionInfos source [].
Proof. by rewrite !diffIPPermissionInfos_filter. Qed.

Lemma diff_nil_r (source : list IPPermissionInfo) :
  diffIPPermissionInfos source [] = source.
Proof.
  induction source as [|s source IH]; [done|].
  by rewrite diff_nil_target, IH.
Qed.

(** X1. The diff keeps the order and the multiplicity of [source]: its
    result is [source] with some elements struck out, an element without
    an equal in [target] occurs in it as often as in [source], and
    against an empty [target] the whole of [source] comes back. *)
Theorem diff_keeps_order_and_duplicates (source target : list IPPermissionInfo) :
  diffIPPermissionInfos source target `sublist_of` source
  /\ (forall x, containsInTarget x target = false ->
        count_occ IPPermissionInfo_eq_dec (diffIPPermissionInfos source target) x
        = count_occ IPPermissionInfo_eq_dec source x)
  /\ diffIPPermissionInfos source [] = source.
Proof.
  split; [|split].
  - rewrite diffIPPermissionInfos_filter.
    induction source as [|s source IH]; simpl; [constructor|].
    destruct (containsInTarget s target); simpl; by constructor.
  - intros x Hx. rewrite diffIPPermissionInfos_filter.
    induction source as [|s source IH]; simpl; [done|].
    destruct (containsInTarget s target) eqn:Hs; simpl.
    + destruct (IPPermissionInfo_eq_dec s x) as [-> | _]; [congruence | done].
    + destruct (IPPermissionInfo_eq_dec s x); by rewrite IH.
  - apply diff_nil_r.
Qed.

(** X2. Diffs compose: subtracting [t ++ t'] is subtracting [t] and then
    [t']; the diff of a concatenation is the concatenation of the diffs;
    subtracting the same target twice changes nothing more; and a list
    minus itself is empty. *)
Theorem diff_composes (s s' t t' : list IPPermissionInfo) :
  diffIPPermissionInfos s (t ++ t')
    = diffIPPermissionInfos (diffIPPermissionInfos s t) t'
  /\ diffIPPermissionInfos (s ++ s') t
     = diffIPPermissionInfos s t ++ diffIPPermissionInfos s' t
  /\ diffIPPermissionInfos (diffIPPermissionInfos s t) t
     = diffIPPermissionInfos s t
  /\ diffIPPermissionInfos s s = [].
Proof.
  split; [|split; [apply diff_app_source|split]].
  - rewrite !diffIPPermissionInfos_filter.
    induction s as [|x s IH]; simpl; [done|].
    rewrite containsInTarget_app.
    destruct (containsInTarget x t); simpl; [done|].
    destruct (containsInTarget x t'); simpl; by rewrite IH.
  - rewrite !diffIPPermissionInfos_filter.
    induction s as [|x s IH]; simpl; [done|].
    destruct (containsInTarget x t) eqn:Hx; simpl; [done|].
    by rewrite Hx, IH.
  - apply diff_nil. intros x Hx. by apply containsInTarget_self.
Qed.

Lemma sameRules_contains (t t' : list IPPermissionInfo) (x : IPPermissionInfo) :
  sameRules t t' -> containsInTarget x t = containsInTarget x t'.
Proof.
  intros [Htt' Ht't].
  destruct (containsInTarget x t) eqn:Hx, (containsInTarget x t') eqn:Hx';
    try done.
  - apply containsInTarget_true in Hx as (p & Hp & Hxp).
    rewrite (containsInTarget_equal x p t' Hxp), (Htt' p Hp) in Hx'.
    discriminate.
  - apply containsInTarget_true in Hx' as (p & Hp & Hxp).
    rewrite (containsInTarget_equal x p t Hxp), (Ht't p Hp) in Hx.
    discriminate.
Qed.

(** X3. The diff reads its target as a set of rules: two targets that
    hold the same rules under the comparator, in whatever order, with
    whatever repetitions and labels, give the same diff. *)
Theorem diff_target_as_rule_set (source t t' : list IPPermissionInfo) :
  sameRules t t' ->
  diffIPPermissionInfos source t = diffIPPermissionInfos source t'.
Proof.
  intros Hsame. rewrite !diffIPPermissionInfos_filter.
  apply filter_ext. intros x. by rewrite (sameRules_contains t t' x Hsame).
Qed.

(** The four shapes a trace can take once the fetch succeeded. *)
Lemma pass_trace_cases {M : Type} `{!SecurityGroupManager M}
    (sgID : string) (desired : list IPPermissionInfo)
    (opts : list SecurityGroupReconcileOption)
    (m m1 : M) (infos : gmap string SecurityGroupInfo) :
  FetchSGInfosByID m sgID = (Ok infos, m1) ->
  let sgInfo := default SecurityGroupInfo_zero (infos !! sgID) in
  let toRevoke := permissionsToRevoke (reconcileOptions opts) sgInfo desired in
  let toGrant := permissionsToGrant sgInfo desired in
  let trace := calls (reconcile sgID desired opts m).2 in
  trace = [CallFetchSGInfosByID sgID]
  \/ (toRevoke <> [] /\
      trace = [CallFetchSGInfosByID sgID; CallRevokeSGIngress sgID toRevoke])
  \/ (toGrant <> [] /\
      trace = [CallFetchSGInfosByID sgID; CallAuthorizeSGIngress sgID toGrant])
  \/ (toRevoke <> [] /\ toGrant <> [] /\
      trace = [CallFetchSGInfosByID sgID; CallRevokeSGIngress sgID toRevoke;
               CallAuthorizeSGIngress sgID toGrant]).
Proof.
  intros Hfetch sgInfo toRevoke toGrant trace. subst trace.
  destruct (decide (toRevoke = [])) as [Hr|Hr],
           (decide (toGrant = [])) as [Hg|Hg].
  - left. by rewrite (pass_noop sgID desired opts m m1 infos Hfetch Hr Hg).
  - destruct (AuthorizeSGIngress m1 sgID toGrant) as [r m2] eqn:Hauth.
    right; right; left. split; [done|].
    by rewrite (pass_grant_only sgID desired opts m m1 infos Hfetch m2 r Hr Hg Hauth).
  - destruct (RevokeSGIngress m1 sgID toRevoke) as [[e|] m2] eqn:Hrev.
    + right; left. split; [done|].
      by rewrite (pass_revoke_err sgID desired opts m m1 infos Hfetch e m2 Hr Hrev).
    + right; left. split; [done|].
      by rewrite (pass_revoke_only sgID desired opts m m1 infos Hfetch m2 Hr Hrev Hg).
  - destruct (RevokeSGIngress m1 sgID toRevoke) as [[e|] m2] eqn:Hrev.
    + right; left. split; [done|].
      by rewrite (pass_revoke_err sgID desired opts m m1 infos Hfetch e m2 Hr Hrev).
    + destruct (AuthorizeSGIngress m2 sgID toGrant) as [r m3] eqn:Hauth.
      right; right; right. split; [done|]. split; [done|].
      by rewrite (pass_revoke_grant sgID desired opts m m1 infos Hfetch
                    m2 m3 r Hr Hrev Hg Hauth).
Qed.

(** X4. A pass never revokes and grants the same rule: whatever the
    manager answers, no permission handed to revoke is equal, under the
    comparator, to one handed to grant. *)
Theorem never_revokes_what_it_grants {M : Type} `{!SecurityGroupManager M}
    (sgID : string) (desired : list IPPermissionInfo)
    (opts : list SecurityGroupReconcileOption) (m : M) :
  let trace := calls (reconcile sgID desired opts m).2 in
  forall r g, r ∈ revokedBy trace -> g ∈ grantedBy trace -> cmpEqual r g = false.
Proof.
  intros trace r g. subst trace.
  destruct (FetchSGInfosByID m sgID) as [[infos|e] m1] eqn:Hfetch.
  - set (sgInfo := default SecurityGroupInfo_zero (infos !! sgID)).
    assert (forall r g, r ∈ permissionsToRevoke (reconcileOptions opts) sgInfo desired ->
              g ∈ permissionsToGrant sgInfo desired -> cmpEqual r g = false)
      as Hdisjoint.
    { intros r' g' Hr Hg.
      apply elem_of_permissionsToRevoke in Hr as (_ & Hc & _).
      apply elem_of_permissionsToGrant in Hg as [Hg _].
      by apply (proj1 (containsInTarget_false r' desired) Hc). }
    destruct (pass_trace_cases sgID desired opts m m1 infos Hfetch)
      as [-> | [[_ ->] | [[_ ->] | (_ & _ & ->)]]]; simpl;
      rewrite ?app_nil_r; intros Hr Hg;
      try (by apply elem_of_nil in Hr); try (by apply elem_of_nil in Hg);
      by apply Hdisjoint.
  - rewrite (pass_fetch_err sgID desired opts m m1 e Hfetch). simpl.
    intros Hr. by apply elem_of_nil in Hr.
Qed.

(** X6. Every pass issues the fetch first, then at most one revoke, then
    at most one grant, all for the group it was called with, and never a
    revoke or a grant with an empty permission list. *)
Theorem pass_trace_shape {M : Type} `{!SecurityGroupManager M}
    (sgID : string) (desired : list IPPermissionInfo)
    (opts : list SecurityGroupReconcileOption) (m : M) :
  exists revokes grants,
    calls (reconcile sgID desired opts m).2
    = CallFetchSGInfosByID sgID :: revokes ++ grants
    /\ (revokes = []
        \/ exists ps, ps <> [] /\ revokes = [CallRevokeSGIngress sgID ps])
    /\ (grants = []
        \/ exists qs, qs <> [] /\ grants = [CallAuthorizeSGIngress sgID qs]).
Proof.
  destruct (FetchSGInfosByID m sgID) as [[infos|e] m1] eqn:Hfetch.
  - destruct (pass_trace_cases sgID desired opts m m1 infos Hfetch)
      as [-> | [[Hr ->] | [[Hg ->] | (Hr & Hg & ->)]]].
    + exists [], []. repeat split; by left.
    + eexists [_], []. repeat split; [right; eauto | by left].
    + eexists [], [_]. repeat split; [by left | right; eauto].
    + eexists [_], [_]. repeat split; right; eauto.
  - rewrite (pass_fetch_err sgID desired opts m m1 e Hfetch).
    exists [], []. repeat split; by left.
Qed.

(** X5. When the fetch succeeds but its answer has no entry for the
    group, the pass takes the observed state to be empty: it revokes
    nothing, grants the whole desired list as it stands, and issues no
    call beyond the fetch when nothing is desired. *)
Theorem missing_group_read_as_empty {M : Type} `{!SecurityGroupManager M}
    (sgID : string) (desired : list IPPermissionInfo)
    (opts : list SecurityGroupReconcileOption)
    (m m1 : M) (infos : gmap string SecurityGroupInfo) :
  FetchSGInfosByID m sgID = (Ok infos, m1) ->
  infos !! sgID = None ->
  (desired = [] ->
   reconcile sgID desired opts m
   = (None, {| manager := m1; calls := [CallFetchSGInfosByID sgID] |}))
  /\ (desired <> [] ->
      forall r m2,
        AuthorizeSGIngress m1 sgID desired = (r, m2) ->
        reconcile sgID desired opts m
        = (r, {| manager := m2;
                 calls := [CallFetchSGInfosByID sgID;
                           CallAuthorizeSGIngress sgID desired] |})).
Proof.
  intros Hfetch Hmiss.
  assert (permissionsToRevoke (reconcileOptions opts)
            (default SecurityGroupInfo_zero (infos !! sgID)) desired = []) as Hr
    by (rewrite Hmiss; by rewrite permissionsToRevoke_filter).
  assert (permissionsToGrant
            (default SecurityGroupInfo_zero (infos !! sgID)) desired = desired)
    as Hg.
  { rewrite Hmiss. apply diff_nil_r. }
  split.
  - intros ->. by apply (pass_noop sgID [] opts m m1 infos Hfetch).
  - intros Hne r m2 Hauth.
    rewrite (pass_grant_only sgID desired opts m m1 infos Hfetch m2 r Hr);
      rewrite Hg; done.
Qed.

Lemma missing_group_read_as_empty_witness :
  reconcile sg [permD; permD] [] {| recorded := [] |}
  = (None, {| manager := {| recorded := [permD; permD] |};
              calls := [CallFetchSGInfosByID sg;
                        CallAuthorizeSGIngress sg [permD; permD]] |}).
Proof.
  destruct (missing_group_read_as_empty sg [permD; permD] []
              {| recorded := [] |} {| recorded := [] |} ∅)
    as [_ Hgrant]; [reflexivity | reflexivity |].
  apply Hgrant; [discriminate | reflexivity].
Defined.

(** X7. Without any option the selector is "everything": the pass hands
    to revoke every observed permission that has no equal in the desired
    set, that is the whole of [Diff(observed, desired)]. *)
Theorem default_options_revoke_every_extra {M : Type} `{!SecurityGroupManager M}
    (sgID : string) (desired : list IPPermissionInfo)
    (m m1 : M) (infos : gmap string SecurityGroupInfo) :
  FetchSGInfosByID m sgID = (Ok infos, m1) ->
  revokedBy (calls (reconcile sgID desired [] m).2)
  = diffIPPermissionInfos
      (Ingress (default SecurityGroupInfo_zero (infos !! sgID))) desired.
Proof.
  intros Hfetch.
  rewrite (pass_revokedBy sgID desired [] m m1 infos Hfetch).
  rewrite permissionsToRevoke_filter, diffIPPermissionInfos_filter.
  apply filter_ext. intros p. apply andb_true_r.
Qed.

Lemma default_options_revoke_every_extra_witness :
  revokedBy (calls (reconcile sg [] [] (scripted [permA; permB] None None None)).2)
  = [permA; permB].
Proof.
  exact (default_options_revoke_every_extra sg []
           (scripted [permA; permB] None None None)
           (scripted [permA; permB] None None None)
           {[ sg := {| SecurityGroupID := sg; Ingress := [permA; permB] |} ]}
           eq_refl).
Defined.

Lemma reconcile_options_eq {M : Type} `{!SecurityGroupManager M}
    (sgID : string) (desired : list IPPermissionInfo)
    (opts opts' : list SecurityGroupReconcileOption) (m : M) :
  reconcileOptions opts = reconcileOptions opts' ->
  reconcile sgID desired opts m = reconcile sgID desired opts' m.
Proof. intros Heq. unfold_pass. by rewrite Heq. Qed.

(** X8. Options are applied in order, so of several selector options the
    last one decides: a pass given any options followed by
    [WithPermissionSelector sel] runs exactly as the pass given that
    option alone. *)
Theorem last_selector_option_wins {M : Type} `{!SecurityGroupManager M}
    (sgID : string) (desired : list IPPermissionInfo)
    (opts : list SecurityGroupReconcileOption) (sel : Selector) (m : M) :
  PermissionSelector (reconcileOptions (opts ++ [WithPermissionSelector sel])) = sel
  /\ reconcile sgID desired (opts ++ [WithPermissionSelector sel]) m
     = reconcile sgID desired [WithPermissionSelector sel] m.
Proof.
  assert (reconcileOptions (opts ++ [WithPermissionSelector sel])
          = reconcileOptions [WithPermissionSelector sel]) as Heq
    by (unfold reconcileOptions, ApplyOptions; by rewrite fold_left_app).
  split; [by rewrite Heq | by apply reconcile_options_eq].
Qed.

(** X9. Partial failure.  When revoke succeeded and grant then failed
    with [e], leaving the group as revoke left it, the pass returns [e]
    after fetch, revoke, grant; and the next pass, fetching from that
    state, has nothing to revoke and hands to grant exactly the
    permissions the failed grant carried. *)
Theorem grant_failure_is_retried_alone {M : Type} `{!SecurityGroupManager M}
    `{!FaithfulManager M}
    (sgID : string) (desired : list IPPermissionInfo)
    (opts : list SecurityGroupReconcileOption)
    (m m1 m2 m3 m4 m5 : M) (infos infos2 : gmap string SecurityGroupInfo)
    (e : error) (r : option error) :
  FetchSGInfosByID m sgID = (Ok infos, m1) ->
  let sgInfo := default SecurityGroupInfo_zero (infos !! sgID) in
  let toRevoke := permissionsToRevoke (reconcileOptions opts) sgInfo desired in
  let toGrant := permissionsToGrant sgInfo desired in
  toRevoke <> [] ->
  RevokeSGIngress m1 sgID toRevoke = (None, m2) ->
  toGrant <> [] ->
  AuthorizeSGIngress m2 sgID toGrant = (Some e, m3) ->
  ingressOf m3 sgID = ingressOf m2 sgID ->
  FetchSGInfosByID m3 sgID = (Ok infos2, m4) ->
  AuthorizeSGIngress m4 sgID toGrant = (r, m5) ->
  reconcile sgID desired opts m
  = (Some e, {| manager := m3;
                calls := [CallFetchSGInfosByID sgID;
                          CallRevokeSGIngress sgID toRevoke;
                          CallAuthorizeSGIngress sgID toGrant] |})
  /\ reconcile sgID desired opts m3
     = (r, {| manager := m5;
              calls := [CallFetchSGInfosByID sgID;
                        CallAuthorizeSGIngress sgID toGrant] |}).
Proof.
  intros Hfetch sgInfo toRevoke toGrant Hr Hrev Hg Hauth Hsame Hfetch2 Hauth2.
  split; [by eapply pass_revoke_grant|].
  set (sgInfo2 := default SecurityGroupInfo_zero (infos2 !! sgID)).
  destruct (fetch_current m sgID infos m1 Hfetch) as [Hobs Hm1].
  destruct (fetch_current m3 sgID infos2 m4 Hfetch2) as [Hobs2 _].
  fold sgInfo in Hobs. fold sgInfo2 in Hobs2.
  destruct (revoke_removes m1 sgID toRevoke m2 Hrev) as [Hsub Hkeep].
  rewrite Hm1, <- Hobs in Hsub, Hkeep.
  rewrite Hsame in Hobs2. rewrite <- Hobs2 in Hsub, Hkeep.
  assert (permissionsToRevoke (reconcileOptions opts) sgInfo2 desired = [])
    as Hr2.
  { apply no_elem_nil. intros p Hp.
    apply elem_of_permissionsToRevoke in Hp as (Hp & Hc & Hs).
    destruct (Hsub p Hp) as [Hobs' Hnot]. apply Hnot.
    by apply elem_of_permissionsToRevoke. }
  assert (permissionsToGrant sgInfo2 desired = toGrant) as Hg2.
  { unfold toGrant, permissionsToGrant. rewrite !diffIPPermissionInfos_filter.
    apply filter_ext_in. intros d Hd. f_equal.
    destruct (containsInTarget d (Ingress sgInfo)) eqn:Hc.
    - apply containsInTarget_true in Hc as (o & Ho & Hdo).
      apply containsInTarget_true. exists o. split; [|done].
      apply Hkeep; [done|].
      apply containsInTarget_false. intros x Hx.
      destruct (cmpEqual o x) eqn:Hox; [|done].
      apply elem_of_permissionsToRevoke in Hx as (_ & Hxd & _).
      assert (containsInTarget x desired = true) as Hxd'.
      { apply containsInTarget_true. exists d.
        split; [by apply list_elem_of_In|].
        rewrite cmpEqual_sym. by eapply cmpEqual_trans. }
      congruence.
    - apply containsInTarget_false. intros o Ho.
      apply (proj1 (containsInTarget_false d (Ingress sgInfo)) Hc).
      by apply Hsub. }
  rewrite (pass_grant_only sgID desired opts m3 m4 infos2 Hfetch2 m5 r);
    fold sgInfo2; rewrite ?Hg2; done.
Qed.

Lemma grant_failure_is_retried_alone_witness :
  let flaky := scripted [permA] None None (Some "grant failed") in
  reconcile sg [permD] [] flaky
  = (Some "grant failed",
     {| manager := setIngress flaky sg [];
        calls := [CallFetchSGInfosByID sg; CallRevokeSGIngress sg [permA];
                  CallAuthorizeSGIngress sg [permD]] |})
  /\ reconcile sg [permD] [] (setIngress flaky sg [])
     = (Some "grant failed",
        {| manager := setIngress flaky sg [];
           calls := [CallFetchSGInfosByID sg;
                     CallAuthorizeSGIngress sg [permD]] |}).
Proof.
  intros flaky.
  destruct (grant_failure_is_retried_alone sg [permD] []
              flaky flaky (setIngress flaky sg []) (setIngress flaky sg [])
              (setIngress flaky sg []) (setIngress flaky sg [])
              {[ sg := {| SecurityGroupID := sg; Ingress := [permA] |} ]}
              {[ sg := {| SecurityGroupID := sg; Ingress := [] |} ]}
              "grant failed" (Some "grant failed"))
    as [Hfirst Hsecond];
    [reflexivity | vm_compute; discriminate | reflexivity
    | vm_compute; discriminate | reflexivity | reflexivity | reflexivity
    | reflexivity |].
  split; [exact Hfirst | exact Hsecond].
Defined.

(** X3, run: a target in another order, with a repetition and other
    labels. *)
Lemma diff_target_as_rule_set_witness :
  diffIPPermissionInfos [permA; permB] [permA; permD]
  = diffIPPermissionInfos [permA; permB] [permD; permA_unlabelled; permD].
Proof.
  apply diff_target_as_rule_set.
  split; intros p Hp; apply list_elem_of_In in Hp; simpl in Hp;
    repeat (destruct Hp as [<- | Hp]; [reflexivity|]); destruct Hp.
Defined.

(** * The end-to-end test helper *)

Import service.

Section ServiceTestFacts.

Context {Key W : Type} `{!Environment Key W}.

Lemma failuresBefore_le {A : Type} (fails : A -> bool) (answers : list A) :
  failuresBefore fails answers <= length answers.
Proof.
  induction answers as [|a answers IH]; simpl; [lia|].
  destruct (fails a); lia.
Qed.

Lemma failuresBefore_all {A : Type} (fails : A -> bool) (answers : list A) :
  firstSuccess fails answers = None ->
  failuresBefore fails answers = length answers.
Proof.
  induction answers as [|a answers IH]; simpl; [done|].
  destruct (fails a); [intros H; by rewrite IH | done].
Qed.

Lemma httpAttempts_length (n : nat) (tls : bool) (url : string) (w : W) :
  length (httpAttempts n tls url w) = n.
Proof.
  revert w. induction n as [|n IH]; intros w; simpl; [done|].
  destruct (httpGet w tls url) as [resp w']. simpl. by rewrite IH.
Qed.

Lemma deleteAttempts_length (n : nat) (certArn : string) (w : W) :
  length (deleteAttempts n certArn w) = n.
Proof.
  revert w. induction n as [|n IH]; intros w; simpl; [done|].
  destruct (acmDeleteCertificate w certArn) as [err w']. simpl. by rewrite IH.
Qed.

(** The traffic loop, entered with [noerr] unset. *)
Lemma sendTrafficLoop_spec (n : nat) (tls : bool) (protocol : string)
    (svc : v1Service) (port : Z) (ingress0 : LoadBalancerIngress)
    (ingresses : list LoadBalancerIngress) (r : Run Key W) :
  StatusLoadBalancerIngress svc = Some (ingress0 :: ingresses) ->
  let url := trafficURL protocol (Hostname ingress0) port in
  let answers := httpAttempts n tls url (env r) in
  (sendTrafficLoop n false tls protocol svc port r).1
  = match firstSuccess isErr answers with
    | Some (Ok statusCode) =>
        if bool_decide (statusCode = StatusOK) then Done (inr true)
        else Done (inl (Some ("Unexpected HTTP status code "
                              +:+ pretty statusCode)))
    | _ => Done (inr false)
    end
  /\ events (sendTrafficLoop n false tls protocol svc port r).2
     = events r
       ++ concat (replicate (failuresBefore isErr answers)
                    [EvHTTPGet tls url; EvSleep Minute])
       ++ match firstSuccess isErr answers with
          | Some _ => [EvHTTPGet tls url]
          | None => []
          end.
Proof.
  intros Hingress url answers. subst answers.
  revert r. induction n as [|n IH]; intros r; simpl.
  - by rewrite app_nil_r.
  - rewrite Hingress. simpl. unfold doHTTPGet. fold url.
    destruct (httpGet (env r) tls url) as [[statusCode|e] w'] eqn:Hget; simpl.
    + repeat case_bool_decide; done.
    + specialize (IH (Sleep Minute (emit (EvHTTPGet tls url) r w'))).
      simpl in IH. destruct IH as [IH1 IH2]. split; [exact IH1|].
      rewrite IH2. by rewrite <- !app_assoc.
Qed.

(** The delete loop. *)
Lemma deleteCertLoop_spec (n : nat) (certArn : string) (r : Run Key W) :
  let answers := deleteAttempts n certArn (env r) in
  events (deleteCertLoop n certArn r)
  = events r
    ++ concat (replicate (failuresBefore isSomeErr answers)
                 [EvDeleteCertificate certArn; EvSleep Minute])
    ++ match firstSuccess isSomeErr answers with
       | Some _ => [EvDeleteCertificate certArn]
       | None => []
       end.
Proof.
  revert r. induction n as [|n IH]; intros r; simpl.
  - by rewrite app_nil_r.
  - unfold doDeleteCertificate.
    destruct (acmDeleteCertificate (env r) certArn) as [[e|] w'] eqn:Hdel; simpl.
    + specialize (IH (Sleep Minute (emit (EvDeleteCertificate certArn) r w'))).
      simpl in IH. rewrite IH. by rewrite <- !app_assoc.
    + done.
Qed.

(** The inner loop of the active condition never takes its error
    return: the index it tests stays below five. *)
Lemma serviceActiveLoop_spec (n : nat) (i : Z) (key : Key)
    (observedSvc : v1Service) (r : Run Key W) :
  (i + Z.of_nat n = 5)%Z -> (0 <= i)%Z ->
  exists observedSvc' r',
    serviceActiveLoop n i key observedSvc r = (inr tt, observedSvc', r')
    /\ events r'
       = events r
         ++ concat (replicate n [EvK8sGet key; EvSleep (100 * Millisecond)]).
Proof.
  revert i observedSvc r. induction n as [|n IH]; intros i observedSvc r Hi Hi0.
  - simpl. exists observedSvc, r. by rewrite app_nil_r.
  - simpl. unfold doK8sGet.
    destruct (k8sGet (env r) key observedSvc) as [[err obs'] w'] eqn:Hget.
    assert (bool_decide (5 <= i)%Z = false) as Hguard
      by (apply bool_decide_eq_false; lia).
    destruct (IH (i + 1)%Z obs'
                (Sleep (100 * Millisecond) (emit (EvK8sGet key) r w')))
      as (obs'' & r'' & Hloop & Hev); [lia | lia |].
    exists obs'', r''. split.
    + destruct err; [rewrite Hguard|]; exact Hloop.
    + rewrite Hev. simpl. by rewrite <- !app_assoc.
Qed.

End ServiceTestFacts.

Section ServiceTestProperties.

Context {Key W : Type} `{!Environment Key W}.

Lemma listenerTLS_spec (m : ServiceTest) (svc : v1Service) :
  Service m = Some svc ->
  listenerTLS m = Done (bool_decide (is_Some (Annotations svc !! sslCertAnnotation))).
Proof.
  intros Hm. unfold listenerTLS, sslCertAnnotation. rewrite Hm.
  destruct (Annotations svc !! _) as [v|] eqn:Ha.
  - by rewrite bool_decide_eq_true_2 by eauto.
  - rewrite bool_decide_eq_false_2; [done|]. by intros [v Hv].
Qed.

(** X10. [SendTrafficToLB], for a service with a port and a load balancer
    host: it returns nil exactly when the first request answered, among
    the ten it may send, is answered with status 200; a first answer with
    another status is reported as "Unexpected HTTP status code <status>",
    and ten failed requests as "Unsuccessful after 10 retries". *)
Theorem SendTrafficToLB_outcome (m : ServiceTest) (svc : v1Service)
    (port0 : ServicePort) (ports : list ServicePort)
    (ingress0 : LoadBalancerIngress) (ingresses : list LoadBalancerIngress)
    (r : Run Key W) :
  Service m = Some svc ->
  Ports (Spec svc) = port0 :: ports ->
  StatusLoadBalancerIngress svc = Some (ingress0 :: ingresses) ->
  let tls := bool_decide (is_Some (Annotations svc !! sslCertAnnotation)) in
  let url := trafficURL (if tls then "https" else "http")
               (Hostname ingress0) (Port port0) in
  let answers := httpAttempts 10 tls url (env r) in
  (SendTrafficToLB m r).1
  = Done match firstSuccess isErr answers with
         | Some (Ok statusCode) =>
             if bool_decide (statusCode = StatusOK) then None
             else Some ("Unexpected HTTP status code " +:+ pretty statusCode)
         | _ => Some "Unsuccessful after 10 retries"
         end.
Proof.
  intros Hm Hports Hingress tls url answers.
  unfold SendTrafficToLB. rewrite (listenerTLS_spec m svc Hm), Hm, Hports.
  fold tls.
  destruct (sendTrafficLoop_spec 10 tls (if tls then "https" else "http")
              svc (Port port0) ingress0 ingresses r Hingress) as [Hres _].
  fold url answers in Hres.
  destruct (sendTrafficLoop 10 false tls _ svc (Port port0) r) as [res r'].
  simpl in Hres. subst res.
  destruct (firstSuccess isErr answers) as [[statusCode|e]|]; try done.
  by case_bool_decide.
Qed.

(** X11. The requests of [SendTrafficToLB]: every failed request is
    followed by a sleep of one minute, the first answered request ends
    the loop, at most ten requests are sent, and all go to
    [<scheme>://<first host>:<first port>/from-tls-client], with scheme
    https and certificate verification off exactly when the service
    carries the ssl-cert annotation, whatever its value. *)
Theorem SendTrafficToLB_requests (m : ServiceTest) (svc : v1Service)
    (port0 : ServicePort) (ports : list ServicePort)
    (ingress0 : LoadBalancerIngress) (ingresses : list LoadBalancerIngress)
    (r : Run Key W) :
  Service m = Some svc ->
  Ports (Spec svc) = port0 :: ports ->
  StatusLoadBalancerIngress svc = Some (ingress0 :: ingresses) ->
  let tls := bool_decide (is_Some (Annotations svc !! sslCertAnnotation)) in
  let url := trafficURL (if tls then "https" else "http")
               (Hostname ingress0) (Port port0) in
  let answers := httpAttempts 10 tls url (env r) in
  events (SendTrafficToLB m r).2
  = events r
    ++ concat (replicate (failuresBefore isErr answers)
                 [EvHTTPGet tls url; EvSleep Minute])
    ++ match firstSuccess isErr answers with
       | Some _ => [EvHTTPGet tls url]
       | None => []
       end
  /\ failuresBefore isErr answers <= 10.
Proof.
  intros Hm Hports Hingress tls url answers. split.
  - unfold SendTrafficToLB. rewrite (listenerTLS_spec m svc Hm), Hm, Hports.
    fold tls.
    destruct (sendTrafficLoop_spec 10 tls (if tls then "https" else "http")
                svc (Port port0) ingress0 ingresses r Hingress) as [_ Hev].
    fold url answers in Hev.
    destruct (sendTrafficLoop 10 false tls _ svc (Port port0) r)
      as [[[err|[|]]|] r']; exact Hev.
  - pose proof (failuresBefore_le isErr answers) as Hle.
    unfold answers in Hle at 2. by rewrite httpAttempts_length in Hle.
Qed.

(** X12. [SendTrafficToLB] panics before sending anything when
    [m.Service] is nil, when the service has no port, or when it has no
    load balancer ingress entry. *)
Theorem SendTrafficToLB_panics (m : ServiceTest) (r : Run Key W) :
  (Service m = None
   \/ exists svc, Service m = Some svc
        /\ (Ports (Spec svc) = []
            \/ default [] (StatusLoadBalancerIngress svc) = [])) ->
  SendTrafficToLB m r = (Panic, r).
Proof.
  intros [Hm | (svc & Hm & Hsvc)]; unfold SendTrafficToLB.
  - unfold listenerTLS. by rewrite Hm.
  - rewrite (listenerTLS_spec m svc Hm), Hm.
    destruct (Ports (Spec svc)) as [|port0 ports]; [done|].
    destruct Hsvc as [? | Hingress]; [done|].
    simpl. by rewrite Hingress.
Qed.

(** X13. [DeleteCertFromACM] returns nil whatever ACM answers.  It calls
    delete until a call succeeds, at most ten times, sleeping one minute
    after every failed call; when all ten calls fail it has called ten
    times, slept ten times, and still returns nil. *)
Theorem DeleteCertFromACM_never_fails (certArn : string) (r : Run Key W) :
  let answers := deleteAttempts 10 certArn (env r) in
  let attempt := [EvDeleteCertificate (Key := Key) certArn; EvSleep Minute] in
  (DeleteCertFromACM certArn r).1 = None
  /\ events (DeleteCertFromACM certArn r).2
     = events r
       ++ concat (replicate (failuresBefore isSomeErr answers) attempt)
       ++ match firstSuccess isSomeErr answers with
          | Some _ => [EvDeleteCertificate certArn]
          | None => []
          end
  /\ (firstSuccess isSomeErr answers = None ->
      events (DeleteCertFromACM certArn r).2
      = events r ++ concat (replicate 10 attempt)).
Proof.
  intros answers attempt. split; [done|].
  pose proof (deleteCertLoop_spec 10 certArn r) as Hev.
  split; [exact Hev|].
  intros Hnone. unfold DeleteCertFromACM. cbn [snd]. rewrite Hev.
  fold answers. rewrite Hnone, app_nil_r.
  rewrite (failuresBefore_all isSomeErr answers Hnone).
  unfold answers. by rewrite deleteAttempts_length.
Qed.

(** X14. The condition polled by [WaitUntilServiceActive] never reports
    an error: whatever the five Get calls answer, it makes all five,
    sleeping 100 ms after each, and then answers whether the object they
    left has a load balancer ingress list. *)
Theorem serviceActiveCondition_never_errors (NamespacedName : v1Service -> Key)
    (svc observedSvc : v1Service) (r : Run Key W) :
  exists ok observedSvc' r',
    serviceActiveCondition NamespacedName svc (observedSvc, r)
    = ((ok, None), (observedSvc', r'))
    /\ (ok = true <-> StatusLoadBalancerIngress observedSvc' <> None)
    /\ events r'
       = events r
         ++ concat (replicate 5 [EvK8sGet (NamespacedName svc);
                                 EvSleep (100 * Millisecond)]).
Proof.
  destruct (serviceActiveLoop_spec 5 0 (NamespacedName svc) observedSvc r)
    as (obs' & r' & Hloop & Hev); [done | done |].
  unfold serviceActiveCondition. rewrite Hloop.
  destruct (StatusLoadBalancerIngress obs') as [ingress|] eqn:Hingress.
  - exists true, obs', r'. rewrite Hingress. by repeat split.
  - exists false, obs', r'. rewrite Hingress. repeat split; done.
Qed.

Variable NamespacedName : v1Service -> Key.
Variable PollImmediateUntil :
  forall S : Type, Z -> (S -> (bool * option error) * S) -> S -> option error * S.


End ServiceTestProperties.

(** * The helper, run against scripted answers *)

Lemma SendTrafficToLB_outcome_witness :
  (SendTrafficToLB {| Service := Some (sampleService ∅) |}
     (scriptedRun (answering [Err "timeout"; Err "timeout"; Ok 200%Z]))).1
  = Done None
  /\ (SendTrafficToLB {| Service := Some (sampleService ∅) |}
        (scriptedRun (answering [Err "timeout"; Ok 503%Z; Ok 200%Z]))).1
     = Done (Some "Unexpected HTTP status code 503")
  /\ (SendTrafficToLB {| Service := Some (sampleService ∅) |}
        (scriptedRun (answering (replicate 10 (Err "timeout"))))).1
     = Done (Some "Unsuccessful after 10 retries").
Proof.
  split; [|split];
    rewrite (SendTrafficToLB_outcome {| Service := Some (sampleService ∅) |}
               (sampleService ∅) {| Port := 443 |} []
               {| Hostname := "lb.example.com" |} [] _
               eq_refl eq_refl eq_refl);
    vm_compute; reflexivity.
Defined.

(** With the annotation present, even with an empty value, the requests
    go out over https. *)
Lemma SendTrafficToLB_requests_witness :
  events (SendTrafficToLB
            {| Service := Some (sampleService {[ sslCertAnnotation := "" ]}) |}
            (scriptedRun (answering [Err "timeout"; Ok 200%Z]))).2
  = [EvHTTPGet true "https://lb.example.com:443/from-tls-client";
     EvSleep Minute;
     EvHTTPGet true "https://lb.example.com:443/from-tls-client"].
Proof.
  destruct (SendTrafficToLB_requests
              {| Service := Some (sampleService {[ sslCertAnnotation := "" ]}) |}
              (sampleService {[ sslCertAnnotation := "" ]})
              {| Port := 443 |} [] {| Hostname := "lb.example.com" |} []
              (scriptedRun (answering [Err "timeout"; Ok 200%Z]))
              eq_refl eq_refl eq_refl) as [Hev _].
  rewrite Hev. vm_compute. reflexivity.
Defined.

Lemma SendTrafficToLB_panics_witness :
  SendTrafficToLB {| Service := Some emptyService |}
    (scriptedRun (answering [Ok 200%Z]))
  = (Panic, scriptedRun (answering [Ok 200%Z])).
Proof.
  apply SendTrafficToLB_panics. right. exists emptyService.
  split; [reflexivity | left; reflexivity].
Defined.


(** * Narrowing the selector *)

Lemma filter_sublist_implied {A : Type} (f g : A -> bool) (l : list A) :
  (forall x, f x = true -> g x = true) ->
  List.filter f l `sublist_of` List.filter g l.
Proof.
  intros Himp. induction l as [|x l IH]; simpl; [constructor|].
  destruct (f x) eqn:Hf.
  - rewrite (Himp x Hf). by constructor.
  - destruct (g x); [by constructor | done].
Qed.

(** X16. The selector only ever narrows revocation: whatever options a
    pass is given, the permissions it hands to revoke are, in order,
    among those the pass without options would hand to revoke from the
    same state. *)
Theorem selector_only_narrows_revocation {M : Type} `{!SecurityGroupManager M}
    (sgID : string) (desired : list IPPermissionInfo)
    (opts : list SecurityGroupReconcileOption)
    (m m1 : M) (infos : gmap string SecurityGroupInfo) :
  FetchSGInfosByID m sgID = (Ok infos, m1) ->
  revokedBy (calls (reconcile sgID desired opts m).2)
  `sublist_of` revokedBy (calls (reconcile sgID desired [] m).2).
Proof.
  intros Hfetch.
  rewrite (pass_revokedBy sgID desired opts m m1 infos Hfetch).
  rewrite (pass_revokedBy sgID desired [] m m1 infos Hfetch).
  rewrite !permissionsToRevoke_filter.
  apply filter_sublist_implied. intros p Hp.
  apply andb_true_iff in Hp as [Hp _]. by rewrite Hp.
Qed.

Lemma selector_only_narrows_revocation_witness :
  revokedBy (calls (reconcile sg [] [WithPermissionSelector owned]
                      (scripted [permA; permB] None None None)).2)
  `sublist_of`
  revokedBy (calls (reconcile sg [] [] (scripted [permA; permB] None None None)).2).
Proof.
  exact (selector_only_narrows_revocation sg [] [WithPermissionSelector owned]
           (scripted [permA; permB] None None None)
           (scripted [permA; permB] None None None)
           {[ sg := {| SecurityGroupID := sg; Ingress := [permA; permB] |} ]}
           eq_refl).
Defined.

(** * Creating a service *)


(** X4, run: what the pass revokes and what it grants differ. *)
Lemma never_revokes_what_it_grants_witness : cmpEqual permA permD = false.
Proof.
  apply (never_revokes_what_it_grants sg [permD] []
           (scripted [permA] None None None));
    vm_compute; left.
Defined.

(** * Labels, the diff and the selector *)








